(** * Fixed-window rate limiter ([fixed-window.go])

    A shallow embedding of the [FixedWindow] limiter of package [ratelimit]
    and the properties of its specification that hold, or fail, on it.

    The Go methods are written as programs over the primitive memory and
    runtime operations they perform (field loads and stores, mutex
    operations, ticker operations, goroutine start).  One interpreter runs
    a program to completion on a world; a second one lets a scheduler
    interleave a caller with the resetter goroutines, one primitive
    operation at a time. *)

From Stdlib Require Import ZArith String Ascii Bool List Lia.
From stdpp Require Import base list.
Import ListNotations.

Local Open Scope Z_scope.

(** ** Machine integers *)

(** [uint64] arithmetic wraps modulo 2^64. *)
Definition wrap_uint64 (z : Z) : Z := z mod 2 ^ 64.

(** [int64] arithmetic: the two's-complement reading of the low 64 bits.
    It is both the conversion [time.Duration(x)] of a [uint64] and the
    result of an overflowing [int64] multiplication. *)
Definition wrap_int64 (z : Z) : Z := (z + 2 ^ 63) mod 2 ^ 64 - 2 ^ 63.

(** [time.Duration] counts nanoseconds. *)
Definition Second : Z := 1000000000.
Definition Minute : Z := 60 * Second.
Definition Hour : Z := 60 * Minute.

(** ** The limiter record *)

(** Pointers ([*time.Ticker], [*sync.RWMutex]) are addresses into the
    world's ticker and mutex stores; [None] is [nil]. *)
Record FixedWindow := mkFixedWindow {
  Duration : Z;
  Unit : string;
  Limit : Z;
  counter : Z;
  ticker : option nat;
  stop : bool;
  mu : option nat
}.

Definition with_counter (c : Z) (f : FixedWindow) : FixedWindow :=
  mkFixedWindow (Duration f) (Unit f) (Limit f) c (ticker f) (stop f) (mu f).
Definition with_ticker (t : option nat) (f : FixedWindow) : FixedWindow :=
  mkFixedWindow (Duration f) (Unit f) (Limit f) (counter f) t (stop f) (mu f).
Definition with_stop (b : bool) (f : FixedWindow) : FixedWindow :=
  mkFixedWindow (Duration f) (Unit f) (Limit f) (counter f) (ticker f) b (mu f).
Definition with_mu (m : option nat) (f : FixedWindow) : FixedWindow :=
  mkFixedWindow (Duration f) (Unit f) (Limit f) (counter f) (ticker f) (stop f) m.

(** A [time.Ticker]: its period, whether the runtime still delivers ticks
    to it, and whether a tick is buffered in its channel [C] (capacity 1). *)
Record Ticker := mkTicker {
  period : Z;
  live : bool;
  C : bool
}.

(** ** Programs *)

(** The primitive operations of the methods, indexed by their result. *)
Inductive op : Type -> Type :=
| Self : op FixedWindow                 (* the receiver's configuration, for a method call *)
| GetLimit : op Z
| GetCounter : op Z
| SetCounter : Z -> op unit
| GetStop : op bool
| SetStop : bool -> op unit
| GetMu : op (option nat)
| SetMu : option nat -> op unit
| GetTicker : op (option nat)
| SetTicker : option nat -> op unit
| NewRWMutex : op nat                   (* &sync.RWMutex{} *)
| Lock : nat -> op unit
| Unlock : nat -> op unit
| NewTicker : Z -> op nat               (* time.NewTicker(d) *)
| TickerStop : nat -> op unit
| Recv : nat -> op unit                 (* <-t.C *)
| GoReset : op unit.                    (* go fw.reset() *)

Inductive prog (A : Type) : Type :=
| Ret (a : A)
| Throw (msg : string)
| Vis {X : Type} (o : op X) (k : X -> prog A).

Arguments Ret {A} a.
Arguments Throw {A} msg.
Arguments Vis {A X} o k.

Fixpoint bind {A B : Type} (p : prog A) (f : A -> prog B) : prog B :=
  match p with
  | Ret a => f a
  | Throw msg => Throw msg
  | Vis o k => Vis o (fun x => bind (k x) f)
  end.

Definition call {X : Type} (o : op X) : prog X := Vis o Ret.

Notation "x <- p ;; q" := (bind p (fun x => q))
  (at level 100, p at next level, q at level 200, right associativity).
Notation "p ;; q" := (bind p (fun _ => q))
  (at level 100, q at level 200, right associativity).
Notation "! o" := (call o) (at level 9, o at level 9, format "! o").

Definition nil_dereference : string :=
  "runtime error: invalid memory address or nil pointer dereference".

(** A method call through a pointer field faults when the pointer is nil. *)
Definition deref (p : option nat) : prog nat :=
  match p with
  | Some a => Ret a
  | None => Throw nil_dereference
  end.

(** ** Worlds *)

Record World := mkWorld {
  fw : FixedWindow;
  mutexes : list bool;                  (* per mutex: is it held *)
  tickers : list Ticker;
  resetters : list (prog bool)          (* what is left of each goroutine's loop turn *)
}.

Definition with_fw (f : FixedWindow) (w : World) : World :=
  mkWorld f (mutexes w) (tickers w) (resetters w).
Definition with_mutexes (ms : list bool) (w : World) : World :=
  mkWorld (fw w) ms (tickers w) (resetters w).
Definition with_tickers (ts : list Ticker) (w : World) : World :=
  mkWorld (fw w) (mutexes w) ts (resetters w).
Definition with_resetters (rs : list (prog bool)) (w : World) : World :=
  mkWorld (fw w) (mutexes w) (tickers w) rs.

(** ** The methods of [FixedWindow] *)

(** [Validate]: [None] is the nil error, [Some msg] the error built by
    [fmt.Errorf], which carries nothing but its message. *)
Definition Validate (f : FixedWindow) : option string :=
  if Duration f =? 0 then
    Some "duration must be greater than zero"%string
  else if Limit f =? 0 then
    Some "limit must be greater than zero"%string
  else if negb (String.eqb (Unit f) "second")
          && negb (String.eqb (Unit f) "minute")
          && negb (String.eqb (Unit f) "hour") then
    Some (String.append
            "expected one of them: 'second', 'minute', 'hour' but got '"
            (String.append (Unit f) "'"))
  else None.

(** [duration]: the [default] branch panics; the other branches convert
    the [uint64] to [time.Duration] and multiply in [int64]. *)
Definition duration (f : FixedWindow) : prog Z :=
  if String.eqb (Unit f) "second" then
    Ret (wrap_int64 (wrap_int64 (Duration f) * Second))
  else if String.eqb (Unit f) "minute" then
    Ret (wrap_int64 (wrap_int64 (Duration f) * Minute))
  else if String.eqb (Unit f) "hour" then
    Ret (wrap_int64 (wrap_int64 (Duration f) * Hour))
  else
    Throw (String.append "Unsupported time unit '" (String.append (Unit f) "'")).

(** [Accept]: [fw.mu] is loaded for [Lock] and again where the [defer]
    statement evaluates its receiver; the deferred [Unlock] runs last and
    is where a nil receiver would fault.
    [&&] does not read the counter when [stop] is set, and [counter++]
    is a load followed by a store. *)
Definition Accept : prog bool :=
  m <- (p <- !GetMu ;; deref p) ;;
  !(Lock m) ;;
  deferred <- !GetMu ;;
  s <- !GetStop ;;
  accepted <- (if s then Ret false
               else c <- !GetCounter ;; l <- !GetLimit ;; Ret (negb (c =? l))) ;;
  (if accepted : bool
   then c <- !GetCounter ;; !(SetCounter (wrap_uint64 (c + 1)))
   else Ret tt) ;;
  m' <- deref deferred ;;
  !(Unlock m') ;;
  Ret accepted.

Definition Counter : prog Z := !GetCounter.

(** [Do]: the error of [Validate] is returned before anything is written. *)
Definition Do : prog (option string) :=
  f <- !Self ;;
  match Validate f with
  | Some err => Ret (Some err)
  | None =>
      m <- !NewRWMutex ;;
      !(SetMu (Some m)) ;;
      f' <- !Self ;;
      d <- duration f' ;;
      t <- !(NewTicker d) ;;
      !(SetTicker (Some t)) ;;
      !GoReset ;;
      Ret None
  end.

Definition Stop : prog unit :=
  !(SetStop true) ;;
  t <- (p <- !GetTicker ;; deref p) ;;
  !(TickerStop t).

(** [reset]: one turn of the loop [for !fw.stop { <-fw.ticker.C; fw.counter = 0 }].
    The result says whether control goes back to the loop head ([true])
    or the goroutine ends ([false]). *)
Definition reset : prog bool :=
  s <- !GetStop ;;
  if s : bool then Ret false
  else
    t <- (p <- !GetTicker ;; deref p) ;;
    !(Recv t) ;;
    !(SetCounter 0) ;;
    Ret true.

(** ** Running programs *)

Inductive opres (X : Type) : Type :=
| Ok (x : X) (w : World)
| Fault (msg : string)                  (* run-time panic or fatal error *)
| Wait.                                 (* the operation cannot proceed yet *)

Arguments Ok {X} x w.
Arguments Fault {X} msg.
Arguments Wait {X}.

Definition bad_address : string := "address not allocated".

Definition exec_op {X : Type} (o : op X) (w : World) : opres X :=
  match o in op X return opres X with
  | Self => Ok (fw w) w
  | GetLimit => Ok (Limit (fw w)) w
  | GetCounter => Ok (counter (fw w)) w
  | SetCounter c => Ok tt (with_fw (with_counter c (fw w)) w)
  | GetStop => Ok (stop (fw w)) w
  | SetStop b => Ok tt (with_fw (with_stop b (fw w)) w)
  | GetMu => Ok (mu (fw w)) w
  | SetMu m => Ok tt (with_fw (with_mu m (fw w)) w)
  | GetTicker => Ok (ticker (fw w)) w
  | SetTicker t => Ok tt (with_fw (with_ticker t (fw w)) w)
  | NewRWMutex =>
      Ok (length (mutexes w)) (with_mutexes (mutexes w ++ [false]) w)
  | Lock m =>
      match mutexes w !! m with
      | Some false => Ok tt (with_mutexes (<[m:=true]> (mutexes w)) w)
      | Some true => Wait
      | None => Fault bad_address
      end
  | Unlock m =>
      match mutexes w !! m with
      | Some true => Ok tt (with_mutexes (<[m:=false]> (mutexes w)) w)
      | Some false => Fault "fatal error: sync: Unlock of unlocked RWMutex"
      | None => Fault bad_address
      end
  | NewTicker d =>
      if d <=? 0 then Fault "non-positive interval for NewTicker"
      else Ok (length (tickers w))
              (with_tickers (tickers w ++ [mkTicker d true false]) w)
  | TickerStop t =>
      match tickers w !! t with
      | Some tk =>
          Ok tt (with_tickers (<[t:=mkTicker (period tk) false (C tk)]> (tickers w)) w)
      | None => Fault bad_address
      end
  | Recv t =>
      match tickers w !! t with
      | Some tk =>
          if C tk
          then Ok tt (with_tickers (<[t:=mkTicker (period tk) (live tk) false]> (tickers w)) w)
          else Wait
      | None => Fault bad_address
      end
  | GoReset => Ok tt (with_resetters (resetters w ++ [reset]) w)
  end.

Inductive outcome (A : Type) : Type :=
| Done (a : A) (w : World)
| Panicked (msg : string) (w : World)
| Blocked (w : World).

Arguments Done {A} a w.
Arguments Panicked {A} msg w.
Arguments Blocked {A} w.

(** A call that runs without interference from any other goroutine. *)
Fixpoint run {A : Type} (p : prog A) (w : World) : outcome A :=
  match p with
  | Ret a => Done a w
  | Throw msg => Panicked msg w
  | Vis o k =>
      match exec_op o w with
      | Ok x w' => run (k x) w'
      | Fault msg => Panicked msg w
      | Wait => Blocked w
      end
  end.

Definition world_of {A : Type} (r : outcome A) : World :=
  match r with
  | Done _ w => w
  | Panicked _ w => w
  | Blocked w => w
  end.

(** The zero value of the struct with its three exported fields set, and
    the world in which nothing else has been allocated. *)
Definition new_limiter (d : Z) (u : string) (l : Z) : World :=
  mkWorld (mkFixedWindow d u l 0 None false None) [] [] [].

(** ** Goroutines and interleavings *)

(** What happens outside the calling goroutine: the runtime delivers a
    tick to a ticker (a tick that finds the channel full is dropped, a
    stopped ticker gets none), or a resetter goroutine performs its next
    primitive operation. *)
Inductive env : Type :=
| Tick (t : nat)
| Resetter (i : nat).

Definition tick (t : nat) (w : World) : World :=
  match tickers w !! t with
  | Some tk =>
      if live tk
      then with_tickers (<[t:=mkTicker (period tk) true true]> (tickers w)) w
      else w
  | None => w
  end.

(** One primitive operation of a program, if it can proceed. *)
Definition step {A : Type} (p : prog A) (w : World) : option (prog A * World) :=
  match p with
  | Vis o k =>
      match exec_op o w with
      | Ok x w' => Some (k x, w')
      | _ => None
      end
  | _ => None
  end.

(** A resetter that finished a loop turn with [true] is back at the loop
    head; one that finished with [false] has returned. *)
Definition resetter_step (i : nat) (w : World) : World :=
  match resetters w !! i with
  | Some (Ret true) => with_resetters (<[i:=reset]> (resetters w)) w
  | Some p =>
      match step p w with
      | Some (p', w') => with_resetters (<[i:=p']> (resetters w')) w'
      | None => w
      end
  | None => w
  end.

Definition env_step (e : env) (w : World) : World :=
  match e with
  | Tick t => tick t w
  | Resetter i => resetter_step i w
  end.

(** Whole calls and environment steps, as a caller observes them. *)
Inductive action : Type :=
| CallDo
| CallAccept
| CallCounter
| CallStop
| Outside (e : env).

Definition act (a : action) (w : World) : World :=
  match a with
  | CallDo => world_of (run Do w)
  | CallAccept => world_of (run Accept w)
  | CallCounter => world_of (run Counter w)
  | CallStop => world_of (run Stop w)
  | Outside e => env_step e w
  end.

Definition acts (l : list action) (w : World) : World :=
  fold_left (fun w a => act a w) l w.

(** A schedule interleaves the primitive operations of one call with
    environment steps; when the schedule ends the call runs on alone. *)
Inductive turn : Type :=
| Caller
| Env (e : env).

Fixpoint interleave {A : Type} (s : list turn) (p : prog A) (w : World) : outcome A :=
  match s with
  | [] => run p w
  | Env e :: s' => interleave s' p (env_step e w)
  | Caller :: s' =>
      match step p w with
      | Some (p', w') => interleave s' p' w'
      | None => interleave s' p w
      end
  end.

(** A schedule in which the resetter receives its tick before the call
    starts and stores its zero between the load and the store of the
    call's [counter++]. *)
Definition reset_inside_increment : list turn :=
  [Env (Tick 0); Env (Resetter 0); Env (Resetter 0)] ++
  [Caller; Caller; Caller; Caller; Caller; Caller; Caller] ++
  [Env (Resetter 0); Env (Resetter 0)].

(** The same steps with the whole turn of the resetter before the call,
    and after it. *)
Definition reset_before_call : list action :=
  [Outside (Tick 0); Outside (Resetter 0); Outside (Resetter 0);
   Outside (Resetter 0); Outside (Resetter 0); CallAccept].

Definition reset_after_call : list action :=
  [CallAccept; Outside (Tick 0); Outside (Resetter 0); Outside (Resetter 0);
   Outside (Resetter 0); Outside (Resetter 0)].

(** The README limiter, started, with one request accepted. *)
Definition one_accepted : World :=
  acts [CallDo; CallAccept] (new_limiter 5 "second" 2).

(** ** Memory accesses of a call *)

Inductive field : Type := f_config | f_counter | f_stop | f_mu | f_ticker.

Inductive access : Type :=
| Read (f : field)
| Write (f : field)
| Acquire (m : nat)
| Release (m : nat)
| Runtime.                              (* allocation, ticker and goroutine operations *)

Definition access_of {X : Type} (o : op X) : access :=
  match o with
  | Self => Read f_config
  | GetLimit => Read f_config
  | GetCounter => Read f_counter
  | SetCounter _ => Write f_counter
  | GetStop => Read f_stop
  | SetStop _ => Write f_stop
  | GetMu => Read f_mu
  | SetMu _ => Write f_mu
  | GetTicker => Read f_ticker
  | SetTicker _ => Write f_ticker
  | Lock m => Acquire m
  | Unlock m => Release m
  | NewRWMutex | NewTicker _ | TickerStop _ | Recv _ | GoReset => Runtime
  end.

(** The accesses a call performs, in order, when it runs alone. *)
Fixpoint accesses {A : Type} (p : prog A) (w : World) : list access :=
  match p with
  | Vis o k =>
      match exec_op o w with
      | Ok x w' => access_of o :: accesses (k x) w'
      | _ => []
      end
  | _ => []
  end.

(** The shared mutable state of the limiter. *)
Definition shared (f : field) : bool :=
  match f with
  | f_counter | f_stop => true
  | _ => false
  end.

(** Every access to shared state in [l] happens while mutex [m] is held;
    [held] says whether it is held at the start. *)
Fixpoint guarded (m : nat) (held : bool) (l : list access) : bool :=
  match l with
  | [] => true
  | Acquire m' :: l' => guarded m (held || Nat.eqb m' m) l'
  | Release m' :: l' => guarded m (held && negb (Nat.eqb m' m)) l'
  | Read f :: l' | Write f :: l' => (held || negb (shared f)) && guarded m held l'
  | Runtime :: l' => guarded m held l'
  end.

(** ** Vocabulary of the properties *)

Definition supported (u : string) : Prop :=
  u = "second"%string \/ u = "minute"%string \/ u = "hour"%string.

(** The three kinds of configuration error.  An error made by
    [fmt.Errorf] has no type or code of its own, so a caller tells the
    kinds apart by the message, as [error_kind] does. *)
Inductive ConfigError : Type := InvalidDuration | InvalidLimit | InvalidUnit.

Definition error_kind (msg : string) : option ConfigError :=
  if String.eqb msg "duration must be greater than zero" then Some InvalidDuration
  else if String.eqb msg "limit must be greater than zero" then Some InvalidLimit
  else if String.prefix "expected one of them: 'second', 'minute', 'hour' but got '" msg
  then Some InvalidUnit
  else None.

Definition validation_kind (f : FixedWindow) : option ConfigError :=
  match Validate f with
  | Some msg => error_kind msg
  | None => None
  end.

(** [Do] has run: the limiter has a mutex, and nobody holds it. *)
Definition started (w : World) : Prop :=
  exists m, mu (fw w) = Some m /\ mutexes w !! m = Some false.

(** The loop [for i := 0; i < n; i++ { ... rl.Accept() ... }] of the
    README, collecting the answers. *)
Fixpoint Accepts (n : nat) : prog (list bool) :=
  match n with
  | O => Ret []
  | S n' => b <- Accept ;; bs <- Accepts n' ;; Ret (b :: bs)
  end.

(** How many of the answers are [true]. *)
Fixpoint accepted (rs : list bool) : nat :=
  match rs with
  | [] => O
  | true :: rs' => S (accepted rs')
  | false :: rs' => accepted rs'
  end.

(** The control points of a goroutine that runs [reset]. *)
Inductive resetting : prog bool -> Prop :=
| resetting_head : resetting reset
| resetting_step p w p' w' :
    resetting p -> step p w = Some (p', w') -> resetting p'.

(** The pointers of the limiter, when set, point into the stores. *)
Definition well_formed (w : World) : Prop :=
  (forall m, mu (fw w) = Some m -> (m < length (mutexes w))%nat) /\
  (forall t, ticker (fw w) = Some t -> (t < length (tickers w))%nat).

(** The window length a configuration asks for, in nanoseconds. *)
Definition unit_nanoseconds (u : string) : Z :=
  if String.eqb u "second" then Second
  else if String.eqb u "minute" then Minute
  else Hour.

(** The world after a [Stop] that found ticker [t]. *)
Definition stopped_ticker (t : nat) (tk : Ticker) (w : World) : World :=
  with_tickers (<[t:=mkTicker (period tk) false (C tk)]> (tickers w))
    (with_fw (with_stop true (fw w)) w).

(** The world once [Do] has made the mutex, and once it has finished. *)
Definition with_new_mutex (w : World) : World :=
  with_fw (with_mu (Some (length (mutexes w))) (fw w))
    (with_mutexes (mutexes w ++ [false]) w).

Definition with_new_ticker (d : Z) (w : World) : World :=
  with_resetters (resetters w ++ [reset])
    (with_fw (with_ticker (Some (length (tickers w))) (fw w))
       (with_tickers (tickers w ++ [mkTicker d true false]) w)).

(** What every call and every environment step keeps: the configuration,
    a set stop flag, a usable mutex, valid pointers, the bound on the
    counter, and goroutines that run [reset]. *)
Definition evolves (w w' : World) : Prop :=
  Duration (fw w') = Duration (fw w) /\
  Unit (fw w') = Unit (fw w) /\
  Limit (fw w') = Limit (fw w) /\
  (stop (fw w) = true -> stop (fw w') = true) /\
  (started w -> started w') /\
  (well_formed w -> well_formed w') /\
  (0 <= counter (fw w) <= Limit (fw w) -> 0 <= counter (fw w') <= Limit (fw w')) /\
  Forall resetting (resetters w').

(** ** Vocabulary of the further properties *)


(** The control point of [reset] at the receive [<-fw.ticker.C], once
    [fw.ticker] has been loaded and found to be [t]. *)
Definition waiting (t : nat) : prog bool :=
  !(Recv t) ;; !(SetCounter 0) ;; Ret true.


(** Two calls in two goroutines: the schedule says which one performs its
    next primitive operation; a goroutine that cannot proceed (it waits,
    has faulted or has returned) lets the turn pass. *)
Inductive side : Type := Goroutine1 | Goroutine2.

Fixpoint race {A B : Type} (s : list side) (p : prog A) (q : prog B) (w : World)
  : prog A * prog B * World :=
  match s with
  | [] => (p, q, w)
  | Goroutine1 :: s' =>
      match step p w with
      | Some (p', w') => race s' p' q w'
      | None => race s' p q w
      end
  | Goroutine2 :: s' =>
      match step q w with
      | Some (q', w') => race s' p q' w'
      | None => race s' p q w
      end
  end.

(** [Do] called by a second goroutine between the [Lock] of an [Accept]
    and the [defer] statement that follows it. *)
Definition Do_inside_Accept : list side :=
  [Goroutine1; Goroutine1; Goroutine2; Goroutine2; Goroutine2; Goroutine2;
   Goroutine2; Goroutine2; Goroutine2].

(** The limiter has mutex [m], and nobody holds it. *)
Definition unlocked (m : nat) (w : World) : Prop :=
  mu (fw w) = Some m /\ mutexes w !! m = Some false.

(** An [Accept] that has loaded [fw.mu], found [m], and is about to lock. *)
Definition at_Lock (m : nat) (p : prog bool) : Prop :=
  exists w0, mu (fw w0) = Some m /\ step Accept w0 = Some (p, w0).

(** A call that has not locked yet. *)
Definition entering (m : nat) (p : prog bool) : Prop :=
  p = Accept \/ at_Lock m p.

(** A call inside its critical section: it holds mutex [m] at every
    operation that is left, none of them waits or faults, and when it
    returns the mutex is free and the outcome is [R]. *)
Fixpoint critical (m : nat) (p : prog bool) (w : World) (R : outcome bool) : Prop :=
  match p with
  | Ret b => R = Done b w /\ unlocked m w
  | Throw _ => False
  | Vis o k =>
      mutexes w !! m = Some true /\ mu (fw w) = Some m /\
      match exec_op o w with
      | Ok x w' => critical m (k x) w' R
      | _ => False
      end
  end.

(** Where two racing calls of [Accept] can be, from world [w]: both
    before the lock; one inside or through its critical section and the
    other before the lock; or one returned and the other inside or
    through its critical section, entered after the first left. *)
Definition racing (m : nat) (w : World) (p q : prog bool) (w' : World) : Prop :=
  (entering m p /\ entering m q /\ w' = w) \/
  (critical m p w' (run Accept w) /\ entering m q) \/
  (entering m p /\ critical m q w' (run Accept w)) \/
  (exists b wa, p = Ret b /\ run Accept w = Done b wa /\ unlocked m wa /\
                critical m q w' (run Accept wa)) \/
  (exists b wa, q = Ret b /\ run Accept w = Done b wa /\ unlocked m wa /\
                critical m p w' (run Accept wa)).

(** ** Running: general facts *)

Example readme :
  match run Do (new_limiter 5 "second" 2) with
  | Done None w => mu (fw w) = Some 0%nat /\ ticker (fw w) = Some 0%nat
                   /\ tickers w = [mkTicker 5000000000 true false]
                   /\ resetters w = [reset]
  | _ => False
  end.
Proof. vm_compute. auto. Qed.

Lemma run_bind {A B : Type} (p : prog A) (f : A -> prog B) (w : World) :
  run (bind p f) w =
  match run p w with
  | Done a w' => run (f a) w'
  | Panicked msg w' => Panicked msg w'
  | Blocked w' => Blocked w'
  end.
Proof.
  revert w. induction p as [a | msg | X o k IH]; intros w; simpl; try reflexivity.
  destruct (exec_op o w) as [x w' | msg | ]; auto.
Qed.

Lemma world_eta (w : World) :
  mkWorld (fw w) (mutexes w) (tickers w) (resetters w) = w.
Proof. destruct w; reflexivity. Qed.

Lemma fw_eta (f : FixedWindow) :
  mkFixedWindow (Duration f) (Unit f) (Limit f) (counter f) (ticker f) (stop f) (mu f) = f.
Proof. destruct f; reflexivity. Qed.

Lemma relock (ms : list bool) (m : nat) :
  ms !! m = Some false -> <[m:=false]> (<[m:=true]> ms) = ms.
Proof.
  intros H. rewrite list_insert_insert_eq. apply list_insert_id, H.
Qed.

Lemma locked_lookup (ms : list bool) (m : nat) (b : bool) :
  ms !! m = Some b -> <[m:=true]> ms !! m = Some true.
Proof.
  intros H. apply list_lookup_insert_eq. eapply lookup_lt_Some, H.
Qed.

(** What a call of [Accept] does on a started limiter. *)
Lemma run_Accept (w : World) (m : nat) :
  mu (fw w) = Some m -> mutexes w !! m = Some false ->
  run Accept w =
  if stop (fw w) || (counter (fw w) =? Limit (fw w))
  then Done false w
  else Done true (with_fw (with_counter (wrap_uint64 (counter (fw w) + 1)) (fw w)) w).
Proof.
  intros Hmu Hfree. unfold Accept. simpl. rewrite Hmu. simpl. rewrite Hfree. simpl.
  rewrite Hmu. simpl.
  destruct (stop (fw w)) eqn:Hs; simpl.
  - rewrite (locked_lookup _ _ _ Hfree). unfold with_mutexes; simpl.
    rewrite (relock _ _ Hfree). rewrite world_eta. reflexivity.
  - destruct (counter (fw w) =? Limit (fw w)) eqn:Hc; simpl.
    + rewrite (locked_lookup _ _ _ Hfree). unfold with_mutexes; simpl.
      rewrite (relock _ _ Hfree). rewrite world_eta. reflexivity.
    + rewrite (locked_lookup _ _ _ Hfree). unfold with_mutexes, with_fw; simpl.
      rewrite (relock _ _ Hfree). reflexivity.
Qed.

(** ** Validation *)

Lemma supported_eqb (u : string) :
  supported u <->
  negb (String.eqb u "second") && negb (String.eqb u "minute")
    && negb (String.eqb u "hour") = false.
Proof.
  unfold supported.
  destruct (String.eqb_spec u "second"), (String.eqb_spec u "minute"),
    (String.eqb_spec u "hour"); simpl; intuition congruence.
Qed.

Lemma Validate_cases (f : FixedWindow) :
  (Duration f = 0 /\ Validate f = Some "duration must be greater than zero"%string) \/
  (Duration f <> 0 /\ Limit f = 0 /\
   Validate f = Some "limit must be greater than zero"%string) \/
  (Duration f <> 0 /\ Limit f <> 0 /\ ~ supported (Unit f) /\
   Validate f =
   Some (String.append "expected one of them: 'second', 'minute', 'hour' but got '"
           (String.append (Unit f) "'"))) \/
  (Duration f <> 0 /\ Limit f <> 0 /\ supported (Unit f) /\ Validate f = None).
Proof.
  unfold Validate.
  destruct (Z.eqb_spec (Duration f) 0) as [Hd | Hd]; [left; auto |].
  destruct (Z.eqb_spec (Limit f) 0) as [Hl | Hl]; [right; left; auto |].
  destruct (negb (String.eqb (Unit f) "second") && negb (String.eqb (Unit f) "minute")
            && negb (String.eqb (Unit f) "hour")) eqn:Hu.
  - right; right; left. repeat split; auto.
    intros Hs. apply supported_eqb in Hs. congruence.
  - right; right; right. repeat split; auto. apply supported_eqb, Hu.
Qed.

(** Case analysis on the four ways [Validate] can end. *)
Ltac validate_cases f :=
  let Hd := fresh "Hd" in
  let Hl := fresh "Hl" in
  let Hu := fresh "Hu" in
  let E := fresh "E" in
  destruct (Validate_cases f)
    as [[Hd E] | [(Hd & Hl & E) | [(Hd & Hl & Hu & E) | (Hd & Hl & Hu & E)]]];
  rewrite E in *.

Lemma error_kind_unit (u : string) :
  error_kind (String.append "expected one of them: 'second', 'minute', 'hour' but got '"
                (String.append u "'")) = Some InvalidUnit.
Proof. destruct u; reflexivity. Qed.

Lemma Validate_config (f g : FixedWindow) :
  Duration g = Duration f -> Unit g = Unit f -> Limit g = Limit f ->
  Validate g = Validate f.
Proof. intros Hd Hu Hl. unfold Validate. rewrite Hd, Hu, Hl. reflexivity. Qed.

(** A valid configuration has one of the three units [duration] knows. *)
Lemma duration_valid (f : FixedWindow) :
  Validate f = None -> exists d, duration f = Ret d.
Proof.
  intros E. validate_cases f; try discriminate.
  unfold duration. destruct Hu as [Hu | [Hu | Hu]]; rewrite Hu; simpl; eexists; reflexivity.
Qed.

(** C3. [Validate] depends on [Duration], [Unit] and [Limit] only.  It
    returns nil exactly when the duration and the limit are not zero and
    the unit is one of second, minute, hour.  Otherwise the message of its
    error tells which check failed: the duration check when the duration
    is zero, the limit check when only the limit is zero, the unit check
    when only the unit is wrong; the message of the unit error contains
    the unit.  Duration 5, unit second, limit 2 is accepted. *)
Theorem Validate_spec (f : FixedWindow) :
  (forall g, Duration g = Duration f -> Unit g = Unit f -> Limit g = Limit f ->
             Validate g = Validate f) /\
  (Validate f = None <-> Duration f <> 0 /\ Limit f <> 0 /\ supported (Unit f)) /\
  (validation_kind f = Some InvalidDuration <-> Duration f = 0) /\
  (validation_kind f = Some InvalidLimit <-> Duration f <> 0 /\ Limit f = 0) /\
  (validation_kind f = Some InvalidUnit <->
   Duration f <> 0 /\ Limit f <> 0 /\ ~ supported (Unit f)) /\
  (forall msg, Validate f = Some msg -> error_kind msg = Some InvalidUnit ->
               exists pre suf, msg = String.append pre (String.append (Unit f) suf)) /\
  Validate (mkFixedWindow 5 "second" 2 (counter f) (ticker f) (stop f) (mu f)) = None.
Proof.
  split; [| split; [| split; [| split; [| split; [| split]]]]].
  - intros g. apply Validate_config.
  - validate_cases f; split; try discriminate; tauto.
  - unfold validation_kind. validate_cases f; rewrite ?error_kind_unit; simpl;
      split; try discriminate; tauto.
  - unfold validation_kind. validate_cases f; rewrite ?error_kind_unit; simpl;
      split; try discriminate; tauto.
  - unfold validation_kind. validate_cases f; rewrite ?error_kind_unit; simpl;
      split; try discriminate; tauto.
  - intros msg E K. validate_cases f; inversion E; subst msg; try discriminate K.
    exists "expected one of them: 'second', 'minute', 'hour' but got '"%string, "'"%string.
    reflexivity.
  - reflexivity.
Qed.

(** C8. A configuration that [Validate] accepts never takes the panicking
    [default] branch of [duration]: the call returns a value. *)
Theorem duration_no_panic (f : FixedWindow) :
  Validate f = None ->
  exists d, duration f = Ret d /\ forall w, run (duration f) w = Done d w.
Proof.
  intros E. destruct (duration_valid f E) as [d Hd].
  exists d. split; [exact Hd |]. intros w. rewrite Hd. reflexivity.
Qed.

Lemma duration_no_panic_witness :
  exists d, duration (mkFixedWindow 5 "second" 2 0 None false None) = Ret d /\
            forall w, run (duration (mkFixedWindow 5 "second" 2 0 None false None)) w = Done d w.
Proof. apply duration_no_panic. reflexivity. Defined.

(** ** What each call does, on any world *)

Lemma run_Accept_any (w : World) :
  run Accept w =
  match mu (fw w) with
  | None => Panicked nil_dereference w
  | Some m =>
      match mutexes w !! m with
      | None => Panicked bad_address w
      | Some true => Blocked w
      | Some false =>
          if stop (fw w) || (counter (fw w) =? Limit (fw w))
          then Done false w
          else Done true
                 (with_fw (with_counter (wrap_uint64 (counter (fw w) + 1)) (fw w)) w)
      end
  end.
Proof.
  destruct (mu (fw w)) as [m |] eqn:Hmu.
  - destruct (mutexes w !! m) as [[|] |] eqn:Hm.
    + unfold Accept. simpl. rewrite Hmu. simpl. rewrite Hm. reflexivity.
    + rewrite (run_Accept w m Hmu Hm). reflexivity.
    + unfold Accept. simpl. rewrite Hmu. simpl. rewrite Hm. reflexivity.
  - unfold Accept. simpl. rewrite Hmu. reflexivity.
Qed.

Lemma run_Counter (w : World) : run Counter w = Done (counter (fw w)) w.
Proof. reflexivity. Qed.

Lemma run_Stop (w : World) :
  run Stop w =
  match ticker (fw w) with
  | None => Panicked nil_dereference (with_fw (with_stop true (fw w)) w)
  | Some t =>
      match tickers w !! t with
      | None => Panicked bad_address (with_fw (with_stop true (fw w)) w)
      | Some tk => Done tt (stopped_ticker t tk w)
      end
  end.
Proof.
  unfold Stop. simpl. destruct (ticker (fw w)) as [t |]; simpl; [| reflexivity].
  destruct (tickers w !! t) as [tk |]; reflexivity.
Qed.

Lemma run_Do (w : World) :
  run Do w =
  match Validate (fw w) with
  | Some err => Done (Some err) w
  | None =>
      match duration (fw w) with
      | Ret d =>
          if d <=? 0
          then Panicked "non-positive interval for NewTicker" (with_new_mutex w)
          else Done None (with_new_ticker d (with_new_mutex w))
      | _ => run Do w
      end
  end.
Proof.
  destruct (Validate (fw w)) as [err |] eqn:E.
  - unfold Do. simpl. rewrite E. reflexivity.
  - destruct (duration_valid _ E) as [d Hd]. rewrite Hd.
    unfold Do. simpl. rewrite E. simpl.
    replace (duration (with_mu (Some (length (mutexes w))) (fw w))) with (duration (fw w))
      by reflexivity.
    rewrite Hd. simpl. destruct (d <=? 0); reflexivity.
Qed.

(** ** Starting *)

(** C4. When [Validate] fails, [Do] returns that error and the world is
    what it was: no field written, nothing allocated, no goroutine
    started. *)
Theorem Do_invalid (w : World) (err : string) :
  Validate (fw w) = Some err -> run Do w = Done (Some err) w.
Proof.
  intros E. rewrite run_Do, E. reflexivity.
Qed.

Lemma Do_invalid_witness :
  run Do (new_limiter 0 "second" 2) =
  Done (Some "duration must be greater than zero"%string) (new_limiter 0 "second" 2).
Proof. apply Do_invalid. reflexivity. Defined.

(** ** The resetter goroutines *)

(** The control points of [reset]: the loop head, the load of
    [fw.ticker], the receive, the store, and the two ways a turn ends. *)
Lemma resetting_cases (p : prog bool) :
  resetting p ->
  p = reset \/
  p = (t <- (q <- !GetTicker ;; deref q) ;; !(Recv t) ;; !(SetCounter 0) ;; Ret true) \/
  (exists t, p = (!(Recv t) ;; !(SetCounter 0) ;; Ret true)) \/
  p = (!(SetCounter 0) ;; Ret true) \/
  p = Ret true \/ p = Ret false \/ p = Throw nil_dereference.
Proof.
  induction 1 as [| p w p' w' _ IH Hstep]; [left; reflexivity |].
  destruct IH as [-> | [-> | [[t ->] | [-> | [-> | [-> | ->]]]]]];
    simpl in Hstep; try discriminate.
  - inversion Hstep; subst. destruct (stop (fw w')); auto 10.
  - inversion Hstep; subst. destruct (ticker (fw w')) as [t |]; simpl; eauto 10.
  - destruct (tickers w !! t) as [tk |]; [| discriminate].
    destruct (C tk); inversion Hstep; subst. auto 10.
  - inversion Hstep; subst. auto 10.
Qed.

(** A step of a resetter touches nothing but the counter, which it sets
    to zero, and the buffered tick it consumes. *)
Lemma resetting_step_effect (p p' : prog bool) (w w' : World) :
  resetting p -> step p w = Some (p', w') ->
  mutexes w' = mutexes w /\ resetters w' = resetters w /\
  length (tickers w') = length (tickers w) /\
  (fw w' = fw w \/ fw w' = with_counter 0 (fw w)).
Proof.
  intros Hp Hstep.
  destruct (resetting_cases p Hp) as [-> | [-> | [[t ->] | [-> | [-> | [-> | ->]]]]]];
    simpl in Hstep; try discriminate.
  - inversion Hstep; subst. auto.
  - inversion Hstep; subst. auto.
  - destruct (tickers w !! t) as [tk |]; [| discriminate].
    destruct (C tk); inversion Hstep; subst. simpl.
    rewrite length_insert. auto.
  - inversion Hstep; subst. simpl. auto.
Qed.

Lemma resetter_step_effect (i : nat) (w : World) :
  Forall resetting (resetters w) ->
  mutexes (resetter_step i w) = mutexes w /\
  Forall resetting (resetters (resetter_step i w)) /\
  length (tickers (resetter_step i w)) = length (tickers w) /\
  (fw (resetter_step i w) = fw w \/ fw (resetter_step i w) = with_counter 0 (fw w)).
Proof.
  intros Hall. unfold resetter_step.
  destruct (resetters w !! i) as [p |] eqn:Hi; [| auto].
  assert (Hp : resetting p).
  { rewrite Forall_forall in Hall. apply Hall. eapply list_elem_of_lookup_2, Hi. }
  assert (Hgen : forall w0,
    w0 = match step p w with
         | Some (p', w') => with_resetters (<[i:=p']> (resetters w')) w'
         | None => w
         end ->
    mutexes w0 = mutexes w /\ Forall resetting (resetters w0) /\
    length (tickers w0) = length (tickers w) /\
    (fw w0 = fw w \/ fw w0 = with_counter 0 (fw w))).
  { intros w0 ->. destruct (step p w) as [[p' w'] |] eqn:Hstep; [| auto].
    destruct (resetting_step_effect _ _ _ _ Hp Hstep) as (Hm & Hr & Ht & Hf).
    simpl. repeat split; auto.
    rewrite Hr. apply Forall_insert; [assumption |].
    eapply resetting_step; eassumption. }
  destruct p as [[|] | msg | X o k]; try (apply Hgen; reflexivity).
  simpl. repeat split; auto.
  apply Forall_insert; [assumption | constructor].
Qed.

(** ** What every step keeps *)

Lemma wrap_uint64_bounds (z : Z) : 0 <= z -> 0 <= wrap_uint64 z <= z.
Proof.
  intros Hz. unfold wrap_uint64. split.
  - apply Z.mod_pos_bound. lia.
  - apply Z.mod_le; lia.
Qed.

Lemma wrap_uint64_small (z : Z) : 0 <= z < 2 ^ 64 -> wrap_uint64 z = z.
Proof. intros Hz. unfold wrap_uint64. apply Z.mod_small, Hz. Qed.

Lemma evolves_intro (w w' : World) :
  Duration (fw w') = Duration (fw w) ->
  Unit (fw w') = Unit (fw w) ->
  Limit (fw w') = Limit (fw w) ->
  (stop (fw w) = true -> stop (fw w') = true) ->
  (mu (fw w') = mu (fw w) /\ mutexes w' = mutexes w) \/
  (mu (fw w') = Some (length (mutexes w)) /\ mutexes w' = mutexes w ++ [false]) ->
  (ticker (fw w') = ticker (fw w) /\ length (tickers w') = length (tickers w)) \/
  (ticker (fw w') = Some (length (tickers w)) /\
   length (tickers w') = S (length (tickers w))) ->
  (0 <= counter (fw w) <= Limit (fw w) -> 0 <= counter (fw w') <= Limit (fw w)) ->
  Forall resetting (resetters w') ->
  evolves w w'.
Proof.
  intros Hd Hu Hl Hs Hm Ht Hc Hr. unfold evolves.
  split; [exact Hd |]. split; [exact Hu |]. split; [exact Hl |].
  split; [exact Hs |]. split; [| split; [| split; [| exact Hr]]].
  - intros (m & Hmu & Hfree). destruct Hm as [[E1 E2] | [E1 E2]].
    + exists m. rewrite E1, E2. auto.
    + exists (length (mutexes w)). rewrite E1, E2. split; [reflexivity |].
      apply list_lookup_middle. reflexivity.
  - intros [Hwm Hwt]. split.
    + intros m Hmu. destruct Hm as [[E1 E2] | [E1 E2]].
      * rewrite E2. apply Hwm. congruence.
      * rewrite E2, length_app. simpl. rewrite E1 in Hmu. inversion Hmu. lia.
    + intros t Htk. destruct Ht as [[E1 E2] | [E1 E2]].
      * rewrite E2. apply Hwt. congruence.
      * rewrite E2. rewrite E1 in Htk. inversion Htk. lia.
  - rewrite Hl. exact Hc.
Qed.

Lemma evolves_refl (w : World) : Forall resetting (resetters w) -> evolves w w.
Proof. intros H. apply evolves_intro; auto. Qed.

Lemma evolves_trans (w1 w2 w3 : World) : evolves w1 w2 -> evolves w2 w3 -> evolves w1 w3.
Proof.
  unfold evolves. intros (Hd & Hu & Hl & Hs & Hst & Hwf & Hc & Hr)
                         (Hd' & Hu' & Hl' & Hs' & Hst' & Hwf' & Hc' & Hr').
  split; [congruence |]. split; [congruence |]. split; [congruence |].
  split; [auto |]. split; [auto |]. split; [auto |]. split; [auto | exact Hr'].
Qed.

Lemma act_evolves (a : action) (w : World) :
  Forall resetting (resetters w) -> evolves w (act a w).
Proof.
  intros Hr. destruct a as [| | | | [t | i]]; cbn [act env_step].
  - (* Do *)
    rewrite run_Do. destruct (Validate (fw w)) as [err |] eqn:E; simpl.
    + apply evolves_refl, Hr.
    + destruct (duration_valid _ E) as [d ->].
      destruct (d <=? 0); simpl.
      * apply evolves_intro; simpl; auto; try lia.
      * apply evolves_intro; simpl; auto; try lia.
        -- right. rewrite length_app. simpl. split; [reflexivity | lia].
        -- apply Forall_app. split; [assumption |]. repeat constructor.
  - (* Accept *)
    rewrite run_Accept_any. destruct (mu (fw w)) as [m |]; simpl; [| apply evolves_refl, Hr].
    destruct (mutexes w !! m) as [[|] |]; simpl; try apply evolves_refl, Hr.
    destruct (stop (fw w)) eqn:Hs; simpl; [apply evolves_refl, Hr |].
    destruct (Z.eqb_spec (counter (fw w)) (Limit (fw w))) as [Hc | Hc]; simpl;
      [apply evolves_refl, Hr |].
    apply evolves_intro; simpl; auto.
    intros Hb. pose proof (wrap_uint64_bounds (counter (fw w) + 1)). lia.
  - (* Counter *)
    apply evolves_refl, Hr.
  - (* Stop *)
    rewrite run_Stop. destruct (ticker (fw w)) as [t |] eqn:Ht; simpl.
    + destruct (tickers w !! t) as [tk |]; simpl.
      * apply evolves_intro; simpl; auto. left. rewrite length_insert. auto.
      * apply evolves_intro; simpl; auto.
    + apply evolves_intro; simpl; auto.
  - (* a tick *)
    unfold tick. destruct (tickers w !! t) as [tk |]; [| apply evolves_refl, Hr].
    destruct (live tk); [| apply evolves_refl, Hr].
    apply evolves_intro; simpl; auto. left. rewrite length_insert. auto.
  - (* a resetter *)
    destruct (resetter_step_effect i w Hr) as (Hm & Hr' & Ht & Hf).
    apply evolves_intro; auto.
    + destruct Hf as [-> | ->]; reflexivity.
    + destruct Hf as [-> | ->]; reflexivity.
    + destruct Hf as [-> | ->]; reflexivity.
    + destruct Hf as [-> | ->]; auto.
    + left. destruct Hf as [-> | ->]; auto.
    + left. destruct Hf as [-> | ->]; auto.
    + destruct Hf as [-> | ->]; simpl; lia.
Qed.

Lemma acts_evolves (l : list action) (w : World) :
  Forall resetting (resetters w) -> evolves w (acts l w).
Proof.
  revert w. induction l as [| a l IH]; intros w Hr; simpl.
  - apply evolves_refl, Hr.
  - pose proof (act_evolves a w Hr) as H1.
    eapply evolves_trans; [exact H1 |]. apply IH. apply H1.
Qed.

(** ** Admission *)

Lemma stop_after_Stop (w : World) : stop (fw (act CallStop w)) = true.
Proof.
  cbn [act]. rewrite run_Stop.
  destruct (ticker (fw w)) as [t |]; [destruct (tickers w !! t) |]; reflexivity.
Qed.

(** C1, as the code has it.  In a world whose goroutines run [reset]:
    on a limiter that was never started ([mu] is nil) [Accept] faults with
    a nil dereference and returns nothing; on a started limiter it returns
    false and leaves the world unchanged when [stop] is set or the counter
    equals [Limit], and otherwise returns true and stores counter + 1
    modulo 2^64, which is counter + 1 whenever the counter is below
    2^64 - 1; and once [Stop] has been called on a started limiter, every
    later [Accept] returns false and changes nothing, whatever calls and
    environment steps come in between. *)
Theorem Accept_spec (w : World) :
  Forall resetting (resetters w) ->
  (mu (fw w) = None -> run Accept w = Panicked nil_dereference w) /\
  (started w ->
   run Accept w =
   (if stop (fw w) || (counter (fw w) =? Limit (fw w))
    then Done false w
    else Done true (with_fw (with_counter (wrap_uint64 (counter (fw w) + 1)) (fw w)) w)) /\
   (0 <= counter (fw w) < 2 ^ 64 - 1 ->
    wrap_uint64 (counter (fw w) + 1) = counter (fw w) + 1) /\
   (forall l : list action,
      run Accept (acts (CallStop :: l) w) = Done false (acts (CallStop :: l) w))).
Proof.
  intros Hr. split.
  - intros Hnil. rewrite run_Accept_any, Hnil. reflexivity.
  - intros Hst. split; [| split].
    + destruct Hst as (m & Hmu & Hfree). apply (run_Accept w m Hmu Hfree).
    + intros Hc. apply wrap_uint64_small. lia.
    + intros l. cbn [acts fold_left]. fold (acts l (act CallStop w)).
      pose proof (act_evolves CallStop w Hr) as H1.
      assert (Hr1 : Forall resetting (resetters (act CallStop w))) by apply H1.
      pose proof (acts_evolves l _ Hr1) as H2.
      pose proof (evolves_trans _ _ _ H1 H2) as (_ & _ & _ & _ & Hstarted & _).
      destruct (Hstarted Hst) as (m & Hmu & Hfree).
      destruct H2 as (_ & _ & _ & Hstop & _).
      rewrite (run_Accept _ m Hmu Hfree), (Hstop (stop_after_Stop w)). reflexivity.
Qed.

(** The C1 witness: the README limiter, started, one call accepted. *)
Lemma Accept_spec_witness :
  run Accept (act CallDo (new_limiter 5 "second" 2)) =
  Done true (with_fw (with_counter 1 (fw (act CallDo (new_limiter 5 "second" 2))))
               (act CallDo (new_limiter 5 "second" 2))).
Proof.
  assert (Hr : Forall resetting (resetters (act CallDo (new_limiter 5 "second" 2)))).
  { repeat constructor. }
  assert (Hst : started (act CallDo (new_limiter 5 "second" 2))).
  { exists 0%nat. split; reflexivity. }
  destruct (Accept_spec _ Hr) as [_ H]. destruct (H Hst) as [E _]. exact E.
Defined.

(** C1 as stated fails: a limiter that was never started does not answer
    false, it faults; and a counter at 2^64 - 1 (with a smaller limit)
    is not incremented by 1, it wraps to 0. *)
Lemma Accept_never_started_faults :
  run Accept (new_limiter 5 "second" 2) =
  Panicked nil_dereference (new_limiter 5 "second" 2) /\
  (forall b w', run Accept (new_limiter 5 "second" 2) <> Done b w') /\
  run Accept (mkWorld (mkFixedWindow 5 "second" 2 (2 ^ 64 - 1) None false (Some 0%nat))
                [false] [] []) =
  Done true (mkWorld (mkFixedWindow 5 "second" 2 0 None false (Some 0%nat)) [false] [] []).
Proof. split; [reflexivity | split; [discriminate | reflexivity]]. Qed.

(** C2. From any world in which the counter is 0, the limit is not
    negative and the goroutines run [reset] (in particular from a fresh
    limiter), every sequence of [Do], [Accept], [Counter] and [Stop] calls,
    ticks and resetter steps leads to a world where 0 <= counter <= Limit,
    with the limit it started with. *)
Theorem counter_bounded (w : World) (l : list action) :
  counter (fw w) = 0 -> 0 <= Limit (fw w) -> Forall resetting (resetters w) ->
  0 <= counter (fw (acts l w)) <= Limit (fw (acts l w)) /\
  Limit (fw (acts l w)) = Limit (fw w).
Proof.
  intros Hc Hl Hr.
  destruct (acts_evolves l w Hr) as (_ & _ & HL & _ & _ & _ & Hb & _).
  split; [apply Hb; lia | exact HL].
Qed.

Lemma counter_bounded_witness :
  0 <= counter (fw (acts [CallDo; CallAccept; CallAccept; CallAccept;
                          Outside (Tick 0); Outside (Resetter 0); Outside (Resetter 0);
                          Outside (Resetter 0); Outside (Resetter 0); CallAccept; CallStop]
                      (new_limiter 5 "second" 2))) <= 2.
Proof.
  apply (counter_bounded (new_limiter 5 "second" 2)); simpl; [reflexivity | lia | constructor].
Defined.

(** ** Stopping *)

(** C7, as the code has it.  With valid pointers: on a limiter whose
    ticker is nil ([Do] never ran) [Stop] sets the stop flag and then
    faults with a nil dereference; on a limiter with a ticker it returns,
    having set the flag and stopped the ticker, and a second [Stop] then
    returns too and changes nothing. *)
Theorem Stop_spec (w : World) :
  well_formed w ->
  match ticker (fw w) with
  | None => run Stop w = Panicked nil_dereference (with_fw (with_stop true (fw w)) w)
  | Some t =>
      exists tk, tickers w !! t = Some tk /\
                 run Stop w = Done tt (stopped_ticker t tk w) /\
                 run Stop (stopped_ticker t tk w) = Done tt (stopped_ticker t tk w)
  end.
Proof.
  intros [_ Hwt]. rewrite run_Stop.
  destruct (ticker (fw w)) as [t |] eqn:Ht; [| reflexivity].
  destruct (lookup_lt_is_Some_2 (tickers w) t (Hwt t eq_refl)) as [tk Htk].
  exists tk. rewrite Htk. split; [reflexivity |]. split; [reflexivity |].
  rewrite run_Stop. simpl. rewrite Ht.
  rewrite list_lookup_insert_eq by (eapply lookup_lt_Some, Htk).
  unfold stopped_ticker, with_tickers, with_fw, with_stop. simpl.
  rewrite list_insert_insert_eq. reflexivity.
Qed.

Lemma Stop_spec_witness :
  exists tk, tickers (act CallDo (new_limiter 5 "second" 2)) !! 0%nat = Some tk /\
    run Stop (act CallDo (new_limiter 5 "second" 2)) =
    Done tt (stopped_ticker 0 tk (act CallDo (new_limiter 5 "second" 2))) /\
    run Stop (stopped_ticker 0 tk (act CallDo (new_limiter 5 "second" 2))) =
    Done tt (stopped_ticker 0 tk (act CallDo (new_limiter 5 "second" 2))).
Proof.
  apply (Stop_spec (act CallDo (new_limiter 5 "second" 2))).
  split; intros x Hx; inversion Hx; simpl; lia.
Defined.

(** C7 as stated fails: [Stop] on a limiter that was never started faults. *)
Lemma Stop_uninitialized_faults :
  run Stop (new_limiter 5 "second" 2) =
  Panicked nil_dereference
    (mkWorld (mkFixedWindow 5 "second" 2 0 None true None) [] [] []) /\
  (forall w', run Stop (new_limiter 5 "second" 2) <> Done tt w').
Proof. split; [reflexivity | discriminate]. Qed.

(** ** One window *)

Lemma accepted_replicate (k n : nat) :
  accepted (replicate k true ++ replicate n false) = k.
Proof.
  induction k as [| k IH]; simpl.
  - induction n as [| n IHn]; simpl; auto.
  - rewrite IH. reflexivity.
Qed.

(** [n] calls in a row from counter [c]: the first min(n, Limit - c) are
    accepted, the rest refused, and the counter ends that much higher. *)
Lemma run_Accepts (n : nat) (w : World) :
  started w -> stop (fw w) = false ->
  0 <= counter (fw w) <= Limit (fw w) -> Limit (fw w) < 2 ^ 64 ->
  let k := Z.to_nat (Z.min (Z.of_nat n) (Limit (fw w) - counter (fw w))) in
  run (Accepts n) w =
  Done (replicate k true ++ replicate (n - k) false)
       (with_fw (with_counter (counter (fw w) + Z.of_nat k) (fw w)) w).
Proof.
  revert w. induction n as [| n IH]; intros w Hst Hs Hc Hl k.
  - assert (Hk : k = O) by (subst k; lia). rewrite Hk. simpl.
    rewrite Z.add_0_r. unfold with_fw, with_counter.
    rewrite fw_eta, world_eta. reflexivity.
  - cbn [Accepts]. rewrite run_bind.
    destruct Hst as (m & Hmu & Hfree). rewrite (run_Accept w m Hmu Hfree), Hs. simpl.
    destruct (Z.eqb_spec (counter (fw w)) (Limit (fw w))) as [E | E].
    + rewrite run_bind.
      rewrite IH; [| exists m; auto | assumption | assumption | assumption].
      assert (Hk : k = O) by (subst k; lia). rewrite Hk.
      replace (Z.to_nat (Z.min (Z.of_nat n) (Limit (fw w) - counter (fw w)))) with O by lia.
      simpl. rewrite Nat.sub_0_r. reflexivity.
    + rewrite run_bind.
      rewrite wrap_uint64_small by lia.
      rewrite IH; simpl; [| exists m; auto | assumption | lia | assumption].
      assert (Hk : k = S (Z.to_nat (Z.min (Z.of_nat n)
                                      (Limit (fw w) - (counter (fw w) + 1)))))
        by (subst k; lia).
      rewrite Hk. simpl. unfold with_fw, with_counter. simpl.
      do 3 f_equal. lia.
Qed.

(** C6. On a started limiter that is not stopped, with the counter at 0,
    [n] calls of [Accept] in a row answer true min(n, Limit) times, all of
    them before the first false; the number of true answers does not
    exceed [Limit], and [Counter] then returns that number.  With duration
    5, unit second and limit 2, [Do] followed by five calls gives
    true, true, false, false, false. *)
Theorem Accepts_within_window (n : nat) (w : World) :
  started w -> stop (fw w) = false -> counter (fw w) = 0 ->
  0 <= Limit (fw w) < 2 ^ 64 ->
  let k := Z.to_nat (Z.min (Z.of_nat n) (Limit (fw w))) in
  (exists w',
     run (Accepts n) w = Done (replicate k true ++ replicate (n - k) false) w' /\
     run Counter w' = Done (Z.of_nat k) w') /\
  accepted (replicate k true ++ replicate (n - k) false) = k /\
  Z.of_nat k <= Limit (fw w) /\
  (exists w',
     run (err <- Do ;; Accepts 5) (new_limiter 5 "second" 2) =
     Done [true; true; false; false; false] w').
Proof.
  intros Hst Hs Hc Hl k.
  pose proof (run_Accepts n w Hst Hs) as H. rewrite Hc, Z.sub_0_r in H.
  specialize (H ltac:(lia) ltac:(lia)). cbv zeta in H. fold k in H.
  split; [| split; [| split]].
  - eexists. split; [exact H |]. rewrite run_Counter. simpl. reflexivity.
  - apply accepted_replicate.
  - subst k. lia.
  - eexists. vm_compute. reflexivity.
Qed.

Lemma Accepts_within_window_witness :
  exists w',
    run (Accepts 5) (act CallDo (new_limiter 5 "second" 2)) =
    Done [true; true; false; false; false] w' /\
    run Counter w' = Done 2 w'.
Proof.
  assert (Hst : started (act CallDo (new_limiter 5 "second" 2))).
  { exists 0%nat. split; reflexivity. }
  destruct (Accepts_within_window 5 (act CallDo (new_limiter 5 "second" 2)) Hst)
    as [H _]; [reflexivity | reflexivity | simpl; lia |].
  exact H.
Defined.

(** ** Starting again *)

Lemma duration_config (f g : FixedWindow) :
  Duration g = Duration f -> Unit g = Unit f -> duration g = duration f.
Proof. intros Hd Hu. unfold duration. rewrite Hd, Hu. reflexivity. Qed.

(** When [Do] returns nil the configuration is valid, the period is
    positive, and the world has one more mutex, ticker and goroutine. *)
Lemma Do_nil (w w' : World) :
  run Do w = Done None w' ->
  exists d, Validate (fw w) = None /\ duration (fw w) = Ret d /\ 0 < d /\
            w' = with_new_ticker d (with_new_mutex w).
Proof.
  rewrite run_Do. destruct (Validate (fw w)) as [err |] eqn:E; [discriminate |].
  destruct (duration_valid _ E) as [d Hd]. rewrite Hd.
  destruct (Z.leb_spec d 0) as [Hle | Hlt]; [discriminate |].
  intros Hw. inversion Hw. exists d. auto.
Qed.

(** C10. Once [Do] has returned nil, a later [Do] on the same limiter
    returns nil again, whatever calls ([Accept], [Counter], [Stop], [Do])
    and environment steps happened in between; it allocates a mutex and a
    ticker that differ from the ones the limiter had, leaves the old ones
    in place, and starts one more goroutine on [reset].  More generally
    [Do] then returns nil in every world with the same [Duration], [Unit]
    and [Limit]: its success depends on nothing else. *)
Theorem Do_again (w0 w1 : World) (l : list action) :
  Forall resetting (resetters w0) ->
  run Do w0 = Done None w1 ->
  (exists w3 d,
     run Do (acts l w1) = Done None w3 /\
     mu (fw w3) = Some (length (mutexes (acts l w1))) /\
     mu (fw w3) <> mu (fw (acts l w1)) /\
     mutexes w3 = mutexes (acts l w1) ++ [false] /\
     ticker (fw w3) = Some (length (tickers (acts l w1))) /\
     ticker (fw w3) <> ticker (fw (acts l w1)) /\
     tickers w3 = tickers (acts l w1) ++ [mkTicker d true false] /\
     resetters w3 = resetters (acts l w1) ++ [reset] /\
     counter (fw w3) = counter (fw (acts l w1)) /\
     stop (fw w3) = stop (fw (acts l w1))) /\
  (forall w,
     Duration (fw w) = Duration (fw w0) -> Unit (fw w) = Unit (fw w0) ->
     Limit (fw w) = Limit (fw w0) ->
     exists w', run Do w = Done None w').
Proof.
  intros Hr Hdo.
  destruct (Do_nil _ _ Hdo) as (d & Hv & Hd & Hpos & ->).
  assert (Hsame : forall w,
    Duration (fw w) = Duration (fw w0) -> Unit (fw w) = Unit (fw w0) ->
    Limit (fw w) = Limit (fw w0) ->
    run Do w = Done None (with_new_ticker d (with_new_mutex w))).
  { intros w HD HU HL. rewrite run_Do.
    rewrite (Validate_config (fw w0) (fw w) HD HU HL), Hv.
    rewrite (duration_config (fw w0) (fw w) HD HU), Hd.
    destruct (Z.leb_spec d 0); [lia | reflexivity]. }
  split; [| intros w HD HU HL; eexists; apply Hsame; assumption].
  set (w1 := with_new_ticker d (with_new_mutex w0)).
  assert (Hr1 : Forall resetting (resetters w1)).
  { simpl. apply Forall_app. split; [assumption | repeat constructor]. }
  assert (Hwf1 : well_formed w1).
  { split; simpl; intros x Hx; inversion Hx; rewrite length_app; simpl; lia. }
  destruct (acts_evolves l w1 Hr1) as (HD & HU & HL & _ & _ & Hwf & _).
  destruct (Hwf Hwf1) as [Hwm Hwt].
  set (w2 := acts l w1) in *.
  exists (with_new_ticker d (with_new_mutex w2)), d.
  split; [apply Hsame; simpl in *; congruence |].
  simpl. repeat split; try reflexivity.
  - intros E. symmetry in E. apply Hwm in E. lia.
  - intros E. symmetry in E. apply Hwt in E. lia.
Qed.

Lemma Do_again_witness :
  exists w3 d,
    run Do (acts [CallAccept; CallStop] (act CallDo (new_limiter 5 "second" 2))) =
    Done None w3 /\
    resetters w3 = [reset; reset] /\
    tickers w3 = [mkTicker 5000000000 false false; mkTicker d true false].
Proof.
  destruct (Do_again (new_limiter 5 "second" 2) (act CallDo (new_limiter 5 "second" 2))
              [CallAccept; CallStop])
    as [(w3 & d & H1 & _ & _ & _ & _ & _ & H2 & H3 & _) _];
    [constructor | reflexivity |].
  exists w3, d. auto.
Defined.

(** ** The window *)

(** Where the product fits in an [int64], the period is the duration
    times the unit. *)
Lemma duration_exact (f : FixedWindow) :
  supported (Unit f) -> 0 <= Duration f ->
  Duration f * unit_nanoseconds (Unit f) < 2 ^ 63 ->
  duration f = Ret (Duration f * unit_nanoseconds (Unit f)).
Proof.
  intros Hu Hd Hfit.
  assert (Hw : forall z, 0 <= z < 2 ^ 63 -> wrap_int64 z = z).
  { intros z Hz. unfold wrap_int64. rewrite Z.mod_small; lia. }
  assert (Hdur : Duration f < 2 ^ 63).
  { destruct Hu as [Hu | [Hu | Hu]]; rewrite Hu in Hfit;
      unfold unit_nanoseconds in Hfit; simpl in Hfit; unfold Hour, Minute, Second in Hfit; lia. }
  unfold duration.
  destruct Hu as [Hu | [Hu | Hu]]; rewrite Hu in *; simpl;
    unfold unit_nanoseconds in Hfit; simpl in Hfit;
    rewrite (Hw (Duration f)) by lia; rewrite Hw; auto;
    unfold Hour, Minute, Second in *; lia.
Qed.

(** A turn of the resetter that finds a tick sets the counter to 0. *)
Lemma run_reset (w : World) (t : nat) (tk : Ticker) :
  stop (fw w) = false -> ticker (fw w) = Some t ->
  tickers w !! t = Some tk -> C tk = true ->
  run reset w =
  Done true (with_fw (with_counter 0 (fw w))
               (with_tickers (<[t:=mkTicker (period tk) (live tk) false]> (tickers w)) w)).
Proof.
  intros Hs Ht Htk HC. unfold reset. simpl. rewrite Hs. simpl. rewrite Ht. simpl.
  rewrite Htk, HC. reflexivity.
Qed.

(** After such a turn [Counter] reads 0; the next [Accept], with a limit
    that is not 0, returns true, and [Counter] then reads 1. *)
Lemma Accept_after_reset (w w' : World) :
  started w -> stop (fw w) = false -> Limit (fw w) <> 0 ->
  run reset w = Done true w' ->
  run Counter w' = Done 0 w' /\
  exists w'', run Accept w' = Done true w'' /\ run Counter w'' = Done 1 w''.
Proof.
  intros (m & Hmu & Hfree) Hs Hl Hrun.
  unfold reset in Hrun. simpl in Hrun. rewrite Hs in Hrun. simpl in Hrun.
  destruct (ticker (fw w)) as [t |]; simpl in Hrun; [| discriminate].
  destruct (tickers w !! t) as [tk |]; [| discriminate].
  destruct (C tk); [| discriminate]. inversion Hrun; subst w'; clear Hrun.
  split; [reflexivity |].
  match goal with
  | |- exists _, run Accept ?w1 = _ /\ _ =>
      exists (with_fw (with_counter 1 (fw w1)) w1); split; [| reflexivity];
      rewrite (run_Accept w1 m Hmu Hfree)
  end.
  cbn [fw with_fw with_tickers with_counter stop counter Limit]. rewrite Hs.
  destruct (Z.eqb_spec 0 (Limit (fw w))); [congruence | reflexivity].
Qed.

(** C5 at the failing input.  [Validate] accepts duration 18446744074
    with unit second, but the period [duration] computes is 290448384 ns
    (the product modulo 2^64), not 18446744074 s, and that is the period
    of the ticker [Do] creates.  With duration 2^63 and unit hour the
    product wraps to 0 and [Do] ends in the panic of [time.NewTicker]. *)
Theorem duration_overflows :
  Validate (mkFixedWindow 18446744074 "second" 1 0 None false None) = None /\
  duration (mkFixedWindow 18446744074 "second" 1 0 None false None) = Ret 290448384 /\
  290448384 <> 18446744074 * Second /\
  (exists w', run Do (new_limiter 18446744074 "second" 1) = Done None w' /\
              tickers w' = [mkTicker 290448384 true false]) /\
  Validate (mkFixedWindow (2 ^ 63) "hour" 1 0 None false None) = None /\
  (exists w', run Do (new_limiter (2 ^ 63) "hour" 1) =
              Panicked "non-positive interval for NewTicker" w').
Proof.
  split; [reflexivity |]. split; [reflexivity |]. split; [discriminate |].
  split; [eexists; split; reflexivity |]. split; [reflexivity |].
  eexists. reflexivity.
Qed.

(** ** The lock *)

(** [Accept] touches the counter and the stop flag only between its
    [Lock] and its [Unlock]. *)
Lemma Accept_guarded (w : World) (m : nat) :
  mu (fw w) = Some m -> mutexes w !! m = Some false ->
  guarded m false (accesses Accept w) = true.
Proof.
  intros Hmu Hfree. unfold Accept. simpl. rewrite Hmu. simpl. rewrite Hfree. simpl.
  rewrite Hmu. simpl. rewrite Nat.eqb_refl. simpl.
  destruct (stop (fw w)); simpl.
  - rewrite (locked_lookup _ _ _ Hfree). reflexivity.
  - destruct (counter (fw w) =? Limit (fw w)); simpl;
      rewrite (locked_lookup _ _ _ Hfree); reflexivity.
Qed.

(** C9 on the code.  Whatever the world and whichever mutex is meant,
    [Counter] reads the counter, [Stop] writes the stop flag, and a turn of
    [reset] reads the stop flag, without holding it: only [Accept] locks.
    So the check-and-increment of [Accept] is not atomic with respect to
    the resetter: on the README limiter with one request accepted, a
    schedule that lets the resetter store its 0 between the load and the
    store of [counter++] ends with the counter at 2, the reset lost, and
    the next [Accept] refused; the two orders without overlap end with
    the counter at 1 and at 0. *)
Theorem shared_state_unguarded (w : World) (m : nat) :
  guarded m false (accesses Counter w) = false /\
  guarded m false (accesses Stop w) = false /\
  guarded m false (accesses reset w) = false /\
  (exists w',
     interleave reset_inside_increment Accept one_accepted = Done true w' /\
     counter (fw w') = 2 /\ resetters w' = [Ret true] /\
     run Accept w' = Done false w') /\
  counter (fw (acts reset_before_call one_accepted)) = 1 /\
  counter (fw (acts reset_after_call one_accepted)) = 0.
Proof.
  split; [reflexivity |]. split; [reflexivity |]. split; [reflexivity |].
  split; [| split; reflexivity].
  eexists. split; [vm_compute; reflexivity |]. repeat split.
Qed.

(** * Further properties of the code *)

(** ** The environment *)

Lemma waiting_reached (w : World) (t : nat) :
  stop (fw w) = false -> ticker (fw w) = Some t ->
  exists p1, step reset w = Some (p1, w) /\ step p1 w = Some (waiting t, w).
Proof.
  intros Hs Ht. eexists. split; [reflexivity |].
  simpl. rewrite Hs. simpl. rewrite Ht. reflexivity.
Qed.

Lemma resetting_waiting (t : nat) : resetting (waiting t).
Proof.
  destruct (waiting_reached (mkWorld (mkFixedWindow 0 "" 0 0 (Some t) false None) [] [] []) t)
    as (p1 & H1 & H2); [reflexivity | reflexivity |].
  eapply resetting_step; [| exact H2].
  eapply resetting_step; [apply resetting_head | exact H1].
Qed.

Lemma resetting_step_detail (p p' : prog bool) (w w' : World) :
  resetting p -> step p w = Some (p', w') ->
  mutexes w' = mutexes w /\ resetters w' = resetters w /\
  (fw w' = fw w \/ fw w' = with_counter 0 (fw w)) /\
  (tickers w' = tickers w \/
   exists t tk, tickers w !! t = Some tk /\ C tk = true /\
                tickers w' = <[t:=mkTicker (period tk) (live tk) false]> (tickers w)).
Proof.
  intros Hp Hstep.
  destruct (resetting_cases p Hp) as [-> | [-> | [[t ->] | [-> | [-> | [-> | ->]]]]]];
    simpl in Hstep; try discriminate.
  - inversion Hstep; subst. auto.
  - inversion Hstep; subst. auto.
  - destruct (tickers w !! t) as [tk |] eqn:Htk; [| discriminate].
    destruct (C tk) eqn:HC; inversion Hstep; subst. simpl.
    repeat split; auto. right. exists t, tk. auto.
  - inversion Hstep; subst. simpl. auto.
Qed.







(** ** Stopping and the goroutines *)

Lemma waiting_act (a : action) (w : World) (i t : nat) (d : Z) :
  Forall resetting (resetters w) ->
  resetters w !! i = Some (waiting t) ->
  tickers w !! t = Some (mkTicker d false false) ->
  resetters (act a w) !! i = Some (waiting t) /\
  tickers (act a w) !! t = Some (mkTicker d false false).
Proof.
  intros Hr Hi Ht. destruct a as [| | | | [t' | j]]; cbn [act env_step].
  - rewrite run_Do. destruct (Validate (fw w)) as [err |] eqn:E; simpl; [auto |].
    destruct (duration_valid _ E) as [d' ->].
    destruct (d' <=? 0); simpl; [auto |].
    split; apply lookup_app_l_Some; assumption.
  - rewrite run_Accept_any. destruct (mu (fw w)) as [m |]; simpl; [| auto].
    destruct (mutexes w !! m) as [[|] |]; simpl; auto.
    destruct (stop (fw w) || (counter (fw w) =? Limit (fw w))); simpl; auto.
  - simpl. auto.
  - rewrite run_Stop. destruct (ticker (fw w)) as [t' |]; simpl; [| auto].
    destruct (tickers w !! t') as [tk |] eqn:Ht'; simpl; [| auto].
    split; [assumption |].
    destruct (decide (t' = t)) as [-> | Hne].
    + rewrite Ht in Ht'. inversion Ht'; subst tk. simpl.
      apply list_lookup_insert_eq. eapply lookup_lt_Some, Ht.
    + rewrite list_lookup_insert_ne by assumption. assumption.
  - unfold tick. destruct (tickers w !! t') as [tk |] eqn:Ht'; [| auto].
    destruct (live tk) eqn:Hl; [| auto]. simpl. split; [assumption |].
    destruct (decide (t' = t)) as [-> | Hne].
    + rewrite Ht in Ht'. inversion Ht'; subst tk. discriminate Hl.
    + rewrite list_lookup_insert_ne by assumption. assumption.
  - destruct (decide (j = i)) as [-> | Hne].
    + unfold resetter_step. rewrite Hi. unfold waiting. simpl. rewrite Ht. simpl. auto.
    + unfold resetter_step. destruct (resetters w !! j) as [p |] eqn:Hj; [| auto].
      assert (Hp : resetting p).
      { rewrite Forall_forall in Hr. apply Hr. eapply list_elem_of_lookup_2, Hj. }
      assert (Hgen :
        let w0 := match step p w with
                  | Some (p', w') => with_resetters (<[j:=p']> (resetters w')) w'
                  | None => w
                  end in
        resetters w0 !! i = Some (waiting t) /\
        tickers w0 !! t = Some (mkTicker d false false)).
      { destruct (step p w) as [[p' w'] |] eqn:Hstep; [| auto].
        destruct (resetting_step_detail _ _ _ _ Hp Hstep) as (_ & Hrs & _ & Htk).
        simpl. rewrite Hrs, list_lookup_insert_ne by assumption. split; [assumption |].
        destruct Htk as [-> | (t'' & tk & Htk & HC & ->)]; [assumption |].
        destruct (decide (t'' = t)) as [-> | Hne'].
        - rewrite Ht in Htk. inversion Htk; subst tk. discriminate HC.
        - rewrite list_lookup_insert_ne by assumption. assumption. }
      destruct p as [[|] | msg | X o k]; try exact Hgen.
      simpl. rewrite list_lookup_insert_ne by assumption. auto.
Qed.

(** X2. A resetter goroutine that waits in [<-fw.ticker.C] on a ticker
    that is stopped and has no tick buffered never leaves that receive:
    whatever calls of [Do], [Accept], [Counter] and [Stop], ticks and
    goroutine steps follow, it is still there and the ticker is still
    stopped and empty.  [Stop] does not end such a goroutine. *)
Theorem stopped_resetter_never_returns (l : list action) (w : World) (i t : nat) (d : Z) :
  Forall resetting (resetters w) ->
  resetters w !! i = Some (waiting t) ->
  tickers w !! t = Some (mkTicker d false false) ->
  resetters (acts l w) !! i = Some (waiting t) /\
  tickers (acts l w) !! t = Some (mkTicker d false false).
Proof.
  revert w. induction l as [| a l IH]; intros w Hr Hi Ht; cbn [acts fold_left]; [auto |].
  destruct (waiting_act a w i t d Hr Hi Ht) as [Hi' Ht'].
  apply IH; [apply (act_evolves a w Hr) | assumption | assumption].
Qed.

Lemma stopped_resetter_never_returns_witness :
  resetters (acts [Outside (Tick 0); Outside (Resetter 0); CallAccept; CallDo;
                   Outside (Resetter 0)]
               (acts [CallDo; Outside (Resetter 0); Outside (Resetter 0); CallStop]
                  (new_limiter 5 "second" 2))) !! 0%nat = Some (waiting 0) /\
  tickers (acts [Outside (Tick 0); Outside (Resetter 0); CallAccept; CallDo;
                 Outside (Resetter 0)]
             (acts [CallDo; Outside (Resetter 0); Outside (Resetter 0); CallStop]
                (new_limiter 5 "second" 2))) !! 0%nat = Some (mkTicker 5000000000 false false).
Proof.
  apply (stopped_resetter_never_returns
           [Outside (Tick 0); Outside (Resetter 0); CallAccept; CallDo; Outside (Resetter 0)]
           (acts [CallDo; Outside (Resetter 0); Outside (Resetter 0); CallStop]
              (new_limiter 5 "second" 2)) 0 0 5000000000).
  - assert (Hr : Forall resetting [waiting 0]).
    { apply Forall_cons. split; [apply resetting_waiting | constructor]. }
    exact Hr.
  - reflexivity.
  - reflexivity.
Defined.




(** ** Starting, again *)

(** X4. A stopped limiter cannot be started again.  When the stop flag is
    set and [Do] returns nil, the stop flag is still set, the goroutine
    [Do] has started returns at its first operation without touching the
    limiter, and the ticker [Do] has created is left running. *)
Theorem Do_after_Stop (w w' : World) :
  stop (fw w) = true -> run Do w = Done None w' ->
  stop (fw w') = true /\
  resetters w' !! length (resetters w) = Some reset /\
  resetters (resetter_step (length (resetters w)) w') !! length (resetters w)
  = Some (Ret false) /\
  fw (resetter_step (length (resetters w)) w') = fw w' /\
  resetter_step (length (resetters w)) (resetter_step (length (resetters w)) w')
  = resetter_step (length (resetters w)) w' /\
  exists d, 0 < d /\
    tickers (resetter_step (length (resetters w)) w') !! length (tickers w)
    = Some (mkTicker d true false).
Proof.
  intros Hs Hdo. destruct (Do_nil _ _ Hdo) as (d & _ & _ & Hpos & ->).
  assert (Hi : resetters (with_new_ticker d (with_new_mutex w)) !! length (resetters w)
               = Some reset).
  { simpl. apply list_lookup_middle. reflexivity. }
  assert (E : resetter_step (length (resetters w)) (with_new_ticker d (with_new_mutex w)) =
              with_resetters (<[length (resetters w):=Ret false]>
                                (resetters (with_new_ticker d (with_new_mutex w))))
                (with_new_ticker d (with_new_mutex w))).
  { unfold resetter_step. rewrite Hi. simpl. rewrite Hs. reflexivity. }
  split; [exact Hs |]. split; [exact Hi |]. rewrite E.
  assert (Hlt : (length (resetters w) < length (resetters w ++ [reset]))%nat)
    by (rewrite length_app; simpl; lia).
  split; [simpl; apply list_lookup_insert_eq; exact Hlt |].
  split; [reflexivity |]. split.
  - unfold resetter_step. simpl. rewrite list_lookup_insert_eq by exact Hlt. reflexivity.
  - exists d. split; [exact Hpos |]. simpl. apply list_lookup_middle. reflexivity.
Qed.

Lemma Do_after_Stop_witness :
  stop (fw (acts [CallDo; CallStop; CallDo] (new_limiter 5 "second" 2))) = true /\
  resetters (resetter_step 1 (acts [CallDo; CallStop; CallDo] (new_limiter 5 "second" 2)))
    !! 1%nat = Some (Ret false).
Proof.
  destruct (Do_after_Stop (acts [CallDo; CallStop] (new_limiter 5 "second" 2))
              (acts [CallDo; CallStop; CallDo] (new_limiter 5 "second" 2)))
    as (H1 & _ & H2 & _); [reflexivity | reflexivity |].
  split; [exact H1 | exact H2].
Defined.

(** X5. [Stop] stops only the ticker [fw.ticker] points to.  After two
    calls of [Do] that returned nil and a [Stop], the ticker of the first
    [Do] is still running, with the same period as the second, which is
    stopped; both goroutines are still there. *)
Theorem Stop_leaves_first_ticker (w0 w1 w2 w3 : World) :
  run Do w0 = Done None w1 -> run Do w1 = Done None w2 -> run Stop w2 = Done tt w3 ->
  exists d, 0 < d /\
    tickers w3 = tickers w0 ++ [mkTicker d true false; mkTicker d false false] /\
    resetters w3 = resetters w0 ++ [reset; reset] /\
    stop (fw w3) = true.
Proof.
  intros H1 H2 H3.
  destruct (Do_nil _ _ H1) as (d & Hv & Hd & Hpos & ->).
  destruct (Do_nil _ _ H2) as (d' & _ & Hd' & _ & ->).
  assert (d' = d) as ->.
  { simpl in Hd'. rewrite (duration_config (fw w0)) in Hd' by reflexivity. congruence. }
  rewrite run_Stop in H3. simpl in H3.
  rewrite list_lookup_middle in H3 by reflexivity.
  inversion H3; subst w3; clear H3.
  exists d. split; [exact Hpos |]. simpl. split; [| split; [| reflexivity]].
  - rewrite insert_app_r_alt by lia. rewrite Nat.sub_diag. simpl.
    rewrite <- app_assoc. reflexivity.
  - rewrite <- app_assoc. reflexivity.
Qed.

Lemma Stop_leaves_first_ticker_witness :
  exists d, 0 < d /\
    tickers (acts [CallDo; CallDo; CallStop] (new_limiter 5 "second" 2)) =
    [] ++ [mkTicker d true false; mkTicker d false false] /\
    resetters (acts [CallDo; CallDo; CallStop] (new_limiter 5 "second" 2)) =
    [] ++ [reset; reset] /\
    stop (fw (acts [CallDo; CallDo; CallStop] (new_limiter 5 "second" 2))) = true.
Proof.
  apply (Stop_leaves_first_ticker (new_limiter 5 "second" 2)
           (acts [CallDo] (new_limiter 5 "second" 2))
           (acts [CallDo; CallDo] (new_limiter 5 "second" 2))
           (acts [CallDo; CallDo; CallStop] (new_limiter 5 "second" 2)));
    reflexivity.
Defined.

(** X6. When [Validate] accepts the configuration but the period
    [duration] computes is not positive, [Do] panics in [time.NewTicker]
    after it has already replaced [fw.mu]: the limiter is left with a new
    mutex, its old ticker field, and no new ticker or goroutine. *)
Theorem Do_panic_leaves_mutex (w : World) (d : Z) :
  Validate (fw w) = None -> duration (fw w) = Ret d -> d <= 0 ->
  exists w',
    run Do w = Panicked "non-positive interval for NewTicker" w' /\
    mu (fw w') = Some (length (mutexes w)) /\
    mutexes w' = mutexes w ++ [false] /\
    ticker (fw w') = ticker (fw w) /\
    tickers w' = tickers w /\
    resetters w' = resetters w.
Proof.
  intros Hv Hd Hle. exists (with_new_mutex w).
  rewrite run_Do, Hv, Hd. destruct (Z.leb_spec d 0); [| lia].
  repeat split.
Qed.

Lemma Do_panic_leaves_mutex_witness :
  exists w',
    run Do (new_limiter (2 ^ 63) "hour" 1) =
    Panicked "non-positive interval for NewTicker" w' /\
    mu (fw w') = Some 0%nat /\
    mutexes w' = [] ++ [false] /\
    ticker (fw w') = None /\
    tickers w' = [] /\
    resetters w' = [].
Proof.
  apply (Do_panic_leaves_mutex (new_limiter (2 ^ 63) "hour" 1) 0);
    [reflexivity | reflexivity | lia].
Defined.

(** X7. For a duration of at least 1, a limit that is not 0, a supported
    unit and a window of less than 2^63 nanoseconds, [Do] returns nil and
    the ticker it creates has exactly the period duration times unit. *)
Theorem Do_in_range (w : World) :
  1 <= Duration (fw w) -> Limit (fw w) <> 0 -> supported (Unit (fw w)) ->
  Duration (fw w) * unit_nanoseconds (Unit (fw w)) < 2 ^ 63 ->
  run Do w =
  Done None (with_new_ticker (Duration (fw w) * unit_nanoseconds (Unit (fw w)))
               (with_new_mutex w)).
Proof.
  intros Hd Hl Hu Hfit.
  assert (Hv : Validate (fw w) = None).
  { validate_cases (fw w); try reflexivity; try lia; tauto. }
  rewrite run_Do, Hv, (duration_exact (fw w) Hu) by lia.
  assert (Hpos : 0 < unit_nanoseconds (Unit (fw w))).
  { unfold unit_nanoseconds, Hour, Minute, Second.
    destruct (String.eqb _ "second"); [lia |]. destruct (String.eqb _ "minute"); lia. }
  destruct (Z.leb_spec (Duration (fw w) * unit_nanoseconds (Unit (fw w))) 0); [nia | reflexivity].
Qed.

Lemma Do_in_range_witness :
  run Do (new_limiter 3 "minute" 100) =
  Done None (with_new_ticker (3 * unit_nanoseconds "minute")
               (with_new_mutex (new_limiter 3 "minute" 100))).
Proof.
  apply (Do_in_range (new_limiter 3 "minute" 100)); simpl;
    [lia | discriminate | right; left; reflexivity | reflexivity].
Defined.

(** ** Windows *)

(** X8. Within a window in which [c] requests have been accepted, [n]
    further calls of [Accept] are accepted min(n, Limit - c) times, all
    of them before the first refusal, and [Counter] then returns [c] plus
    that number. *)
Theorem Accepts_remaining (n : nat) (w : World) :
  started w -> stop (fw w) = false ->
  0 <= counter (fw w) <= Limit (fw w) -> Limit (fw w) < 2 ^ 64 ->
  exists w',
    run (Accepts n) w =
    Done (replicate (Z.to_nat (Z.min (Z.of_nat n) (Limit (fw w) - counter (fw w)))) true ++
          replicate (n - Z.to_nat (Z.min (Z.of_nat n) (Limit (fw w) - counter (fw w)))) false)
         w' /\
    run Counter w' =
    Done (counter (fw w) + Z.min (Z.of_nat n) (Limit (fw w) - counter (fw w))) w'.
Proof.
  intros Hst Hs Hc Hl. eexists. split; [apply (run_Accepts n w Hst Hs Hc Hl) |].
  rewrite run_Counter. simpl. f_equal. lia.
Qed.

Lemma Accepts_remaining_witness :
  exists w',
    run (Accepts 4) one_accepted = Done [true; false; false; false] w' /\
    run Counter w' = Done 2 w'.
Proof.
  assert (Hst : started one_accepted) by (exists 0%nat; split; reflexivity).
  destruct (Accepts_remaining 4 one_accepted Hst) as (w' & H1 & H2);
    [reflexivity | vm_compute; split; discriminate | reflexivity |].
  exists w'. split; [exact H1 | exact H2].
Defined.

(** X9. The window rolls over.  On a started limiter that is not stopped
    and whose ticker is running, however many requests the current window
    has accepted: once a tick has arrived and the resetter has taken its
    turn, the counter is 0 and [m] calls of [Accept] are accepted
    min(m, Limit) times again. *)
Theorem window_rollover (m : nat) (w : World) (t : nat) (tk : Ticker) :
  started w -> stop (fw w) = false -> 0 <= Limit (fw w) < 2 ^ 64 ->
  ticker (fw w) = Some t -> tickers w !! t = Some tk -> live tk = true ->
  exists w1 w2,
    run reset (tick t w) = Done true w1 /\
    run Counter w1 = Done 0 w1 /\
    run (Accepts m) w1 =
    Done (replicate (Z.to_nat (Z.min (Z.of_nat m) (Limit (fw w)))) true ++
          replicate (m - Z.to_nat (Z.min (Z.of_nat m) (Limit (fw w)))) false) w2 /\
    run Counter w2 = Done (Z.min (Z.of_nat m) (Limit (fw w))) w2.
Proof.
  intros (mx & Hmu & Hfree) Hs Hl Ht Htk Hlive.
  assert (Hlt : (t < length (tickers w))%nat) by (eapply lookup_lt_Some, Htk).
  assert (Htick : tick t w = with_tickers (<[t:=mkTicker (period tk) true true]> (tickers w)) w).
  { unfold tick. rewrite Htk, Hlive. reflexivity. }
  rewrite Htick.
  eexists. eexists. split.
  - eapply run_reset; simpl; [exact Hs | exact Ht | apply list_lookup_insert_eq, Hlt | reflexivity].
  - split; [reflexivity |].
    match goal with |- run (Accepts m) ?w1 = _ /\ _ =>
      assert (Hst1 : started w1) by (exists mx; split; [exact Hmu | exact Hfree]);
      pose proof (run_Accepts m w1 Hst1 Hs) as H
    end.
    simpl in H. rewrite Z.sub_0_r in H. specialize (H ltac:(lia) ltac:(lia)).
    split; [exact H |]. rewrite run_Counter. simpl. f_equal. lia.
Qed.

Lemma window_rollover_witness :
  exists w1 w2,
    run reset (tick 0 (acts [CallDo; CallAccept; CallAccept; CallAccept]
                         (new_limiter 5 "second" 2))) = Done true w1 /\
    run Counter w1 = Done 0 w1 /\
    run (Accepts 3) w1 = Done [true; true; false] w2 /\
    run Counter w2 = Done 2 w2.
Proof.
  assert (Hst : started (acts [CallDo; CallAccept; CallAccept; CallAccept]
                           (new_limiter 5 "second" 2)))
    by (exists 0%nat; split; reflexivity).
  destruct (window_rollover 3 _ 0 (mkTicker 5000000000 true false) Hst)
    as (w1 & w2 & H1 & H2 & H3 & H4);
    [reflexivity | vm_compute; split; [discriminate | reflexivity]
     | reflexivity | reflexivity | reflexivity |].
  exists w1, w2. repeat split; assumption.
Defined.

Lemma run_Accepts_above (n : nat) (w : World) :
  started w -> stop (fw w) = false ->
  Limit (fw w) < counter (fw w) -> 0 <= counter (fw w) ->
  counter (fw w) + Z.of_nat n < 2 ^ 64 ->
  run (Accepts n) w =
  Done (replicate n true) (with_fw (with_counter (counter (fw w) + Z.of_nat n) (fw w)) w).
Proof.
  revert w. induction n as [| n IH]; intros w Hst Hs Hgt Hc Hfit.
  - simpl. rewrite Z.add_0_r. unfold with_fw, with_counter.
    rewrite fw_eta, world_eta. reflexivity.
  - cbn [Accepts]. rewrite run_bind.
    destruct Hst as (m & Hmu & Hfree). rewrite (run_Accept w m Hmu Hfree), Hs. simpl.
    destruct (Z.eqb_spec (counter (fw w)) (Limit (fw w))) as [E | E]; [lia |].
    rewrite run_bind, wrap_uint64_small by lia.
    rewrite IH; simpl; [| exists m; auto | assumption | lia | lia | lia].
    unfold with_fw, with_counter. simpl. do 3 f_equal. lia.
Qed.

(** X10. [Accept] refuses only when the counter equals [Limit].  When the
    counter is above the limit (the exported [Limit] was lowered after
    requests were accepted), a started limiter that is not stopped accepts
    every call and keeps counting, as long as the counter stays below
    2^64. *)
Theorem Accept_above_limit (n : nat) (w : World) :
  started w -> stop (fw w) = false ->
  Limit (fw w) < counter (fw w) -> 0 <= counter (fw w) ->
  counter (fw w) + Z.of_nat n < 2 ^ 64 ->
  exists w',
    run (Accepts n) w = Done (replicate n true) w' /\
    run Counter w' = Done (counter (fw w) + Z.of_nat n) w'.
Proof.
  intros Hst Hs Hgt Hc Hfit. eexists.
  split; [apply (run_Accepts_above n w Hst Hs Hgt Hc Hfit) | reflexivity].
Qed.

Lemma Accept_above_limit_witness :
  exists w',
    run (Accepts 3)
      (mkWorld (mkFixedWindow 5 "second" 1 2 (Some 0%nat) false (Some 0%nat))
         [false] [mkTicker 5000000000 true false] [reset]) =
    Done [true; true; true] w' /\
    run Counter w' = Done 5 w'.
Proof.
  apply (Accept_above_limit 3
           (mkWorld (mkFixedWindow 5 "second" 1 2 (Some 0%nat) false (Some 0%nat))
              [false] [mkTicker 5000000000 true false] [reset]));
    [exists 0%nat; split; reflexivity | reflexivity | simpl; lia | simpl; lia | simpl; lia].
Defined.

(** ** Two goroutines *)

Lemma Accept_step (m : nat) (w : World) :
  mu (fw w) = Some m -> exists p, step Accept w = Some (p, w) /\ at_Lock m p.
Proof.
  intros Hmu. eexists. split; [reflexivity |]. exists w. split; [exact Hmu | reflexivity].
Qed.

Lemma at_Lock_held (m : nat) (p : prog bool) (w : World) :
  at_Lock m p -> mutexes w !! m = Some true -> step p w = None.
Proof.
  intros (w0 & Hmu & Hst) Hheld. unfold Accept in Hst. simpl in Hst.
  rewrite Hmu in Hst. simpl in Hst. inversion Hst; subst p.
  simpl. rewrite Hheld. reflexivity.
Qed.

Lemma at_Lock_free (m : nat) (p : prog bool) (w : World) :
  at_Lock m p -> unlocked m w ->
  exists p2, step p w = Some (p2, with_mutexes (<[m:=true]> (mutexes w)) w) /\
             critical m p2 (with_mutexes (<[m:=true]> (mutexes w)) w) (run Accept w).
Proof.
  intros (w0 & Hmu0 & Hst) [Hmu Hfree]. unfold Accept in Hst. simpl in Hst.
  rewrite Hmu0 in Hst. simpl in Hst. inversion Hst; subst p. clear Hst.
  rewrite (run_Accept w m Hmu Hfree).
  simpl. rewrite Hfree. eexists. split; [reflexivity |].
  pose proof (locked_lookup _ _ _ Hfree) as Hheld.
  simpl. rewrite Hmu. simpl.
  destruct (stop (fw w)) eqn:Hs; simpl.
  - rewrite Hheld. unfold unlocked, with_mutexes; simpl.
    rewrite (relock _ _ Hfree), world_eta. repeat split; auto.
  - destruct (counter (fw w) =? Limit (fw w)) eqn:Hc; simpl.
    + rewrite Hheld. unfold unlocked, with_mutexes; simpl.
      rewrite (relock _ _ Hfree), world_eta. repeat split; auto.
    + rewrite Hheld. unfold unlocked, with_mutexes, with_fw; simpl.
      rewrite (relock _ _ Hfree). repeat split; auto.
Qed.

Lemma critical_step (m : nat) (p p' : prog bool) (w w' : World) (R : outcome bool) :
  critical m p w R -> step p w = Some (p', w') -> critical m p' w' R.
Proof.
  destruct p as [b | msg | X o k]; simpl; try discriminate.
  intros (_ & _ & Hc) Hst. destruct (exec_op o w) as [x w1 | |]; try discriminate.
  inversion Hst; subst. exact Hc.
Qed.

Lemma critical_mu (m : nat) (p : prog bool) (w : World) (R : outcome bool) :
  critical m p w R -> mu (fw w) = Some m.
Proof.
  destruct p as [b | msg | X o k]; simpl; [intros (_ & H & _) | tauto | tauto]. exact H.
Qed.

Lemma critical_cases (m : nat) (p : prog bool) (w : World) (R : outcome bool) :
  critical m p w R ->
  (exists b, p = Ret b /\ R = Done b w /\ unlocked m w) \/
  mutexes w !! m = Some true.
Proof.
  destruct p as [b | msg | X o k]; simpl; [| tauto | tauto].
  intros [HR Hu]. left. exists b. auto.
Qed.

Lemma entering_not_Ret (m : nat) (p : prog bool) (b : bool) : entering m p -> p <> Ret b.
Proof.
  intros [-> | (w0 & Hmu & Hst)]; [discriminate |].
  unfold Accept in Hst. simpl in Hst. rewrite Hmu in Hst. simpl in Hst.
  inversion Hst. discriminate.
Qed.

Lemma racing_swap (m : nat) (w : World) (p q : prog bool) (w' : World) :
  racing m w p q w' -> racing m w q p w'.
Proof. unfold racing. intros [H | [H | [H | [H | H]]]]; tauto. Qed.

(** One operation of the first goroutine, or none if it cannot proceed. *)
Lemma racing_step (m : nat) (w : World) (p q : prog bool) (w' : World) :
  unlocked m w -> racing m w p q w' ->
  match step p w' with
  | Some (p1, w1) => racing m w p1 q w1
  | None => racing m w p q w'
  end.
Proof.
  intros Hbase Hr.
  destruct (step p w') as [[p1 w1] |] eqn:Hst; [| exact Hr].
  destruct Hr as [(Hp & Hq & ->) | [(Hc & Hq) | [(Hp & Hc) |
    [(b & wa & -> & HR & Hwa & Hc) | (b & wa & -> & HR & Hwa & Hc)]]]].
  - destruct Hp as [-> | Hat].
    + destruct (Accept_step m w (proj1 Hbase)) as (p2 & Hst2 & Hat).
      rewrite Hst2 in Hst. inversion Hst; subst.
      left. split; [right; exact Hat | auto].
    + destruct (at_Lock_free m p w Hat Hbase) as (p2 & Hst2 & Hcrit).
      rewrite Hst2 in Hst. inversion Hst; subst.
      right; left. auto.
  - right; left. split; [| exact Hq]. eapply critical_step; eassumption.
  - destruct Hp as [-> | Hat].
    + destruct (Accept_step m w' (critical_mu _ _ _ _ Hc)) as (p2 & Hst2 & Hat).
      rewrite Hst2 in Hst. inversion Hst; subst.
      right; right; left. split; [right; exact Hat | exact Hc].
    + destruct (critical_cases _ _ _ _ Hc) as [(b & -> & HR & Hu) | Hheld].
      * destruct (at_Lock_free m p w' Hat Hu) as (p2 & Hst2 & Hcrit).
        rewrite Hst2 in Hst. inversion Hst; subst.
        right; right; right; right. exists b, w'. auto.
      * rewrite (at_Lock_held m p w' Hat Hheld) in Hst. discriminate.
  - discriminate.
  - right; right; right; right. exists b, wa.
    split; [reflexivity |]. split; [exact HR |]. split; [exact Hwa |].
    eapply critical_step; eassumption.
Qed.

Lemma race_racing (m : nat) (w : World) (s : list side) (p q : prog bool) (w' : World) :
  unlocked m w -> racing m w p q w' ->
  racing m w (race s p q w').1.1 (race s p q w').1.2 (race s p q w').2.
Proof.
  intros Hbase. revert p q w'. induction s as [| [|] s IH]; intros p q w' Hr; simpl.
  - exact Hr.
  - pose proof (racing_step m w p q w' Hbase Hr) as H.
    destruct (step p w') as [[p1 w1] |]; apply IH; exact H.
  - pose proof (racing_step m w q p w' Hbase (racing_swap _ _ _ _ _ Hr)) as H.
    destruct (step q w') as [[q1 w1] |]; apply IH; apply racing_swap; exact H.
Qed.

(** X11. Two calls of [Accept] in two goroutines exclude each other.  On a
    started limiter, however their primitive operations are interleaved,
    once both have returned their answers and the world are those of the
    two calls made one after the other, in one of the two orders. *)
Theorem Accepts_serialise (s : list side) (w w' : World) (b1 b2 : bool) :
  started w ->
  race s Accept Accept w = (Ret b1, Ret b2, w') ->
  (exists wa, run Accept w = Done b1 wa /\ run Accept wa = Done b2 w') \/
  (exists wa, run Accept w = Done b2 wa /\ run Accept wa = Done b1 w').
Proof.
  intros (m & Hbase) Hrace.
  assert (H0 : racing m w Accept Accept w) by (left; repeat split; left; reflexivity).
  pose proof (race_racing m w s Accept Accept w Hbase H0) as Hr.
  rewrite Hrace in Hr. simpl in Hr.
  destruct Hr as [(Hp & _) | [(_ & Hq) | [(Hp & _) |
    [(b & wa & Hb & HR & _ & [Hc _]) | (b & wa & Hb & HR & _ & [Hc _])]]]].
  - exfalso. exact (entering_not_Ret m _ b1 Hp eq_refl).
  - exfalso. exact (entering_not_Ret m _ b2 Hq eq_refl).
  - exfalso. exact (entering_not_Ret m _ b1 Hp eq_refl).
  - inversion Hb; subst b. left. exists wa. auto.
  - inversion Hb; subst b. right. exists wa. auto.
Qed.

Lemma Accepts_serialise_witness :
  (exists wa,
     run Accept one_accepted = Done false wa /\
     run Accept wa = Done true (acts [CallAccept] one_accepted)) \/
  (exists wa,
     run Accept one_accepted = Done true wa /\
     run Accept wa = Done false (acts [CallAccept] one_accepted)).
Proof.
  apply (Accepts_serialise
           [Goroutine1; Goroutine2; Goroutine2; Goroutine1; Goroutine2; Goroutine1;
            Goroutine1; Goroutine2; Goroutine1; Goroutine2; Goroutine2; Goroutine2;
            Goroutine2; Goroutine2; Goroutine1; Goroutine1; Goroutine1; Goroutine1;
            Goroutine1; Goroutine1; Goroutine1; Goroutine1]
           one_accepted (acts [CallAccept] one_accepted) false true).
  - exists 0%nat. split; reflexivity.
  - reflexivity.
Defined.

Lemma race_app {A B : Type} (s s' : list side) (p : prog A) (q : prog B) (w : World) :
  race (s ++ s') p q w =
  race s' (race s p q w).1.1 (race s p q w).1.2 (race s p q w).2.
Proof.
  revert p q w. induction s as [| [|] s IH]; intros p q w; simpl.
  - reflexivity.
  - destruct (step p w) as [[p1 w1] |]; apply IH.
  - destruct (step q w) as [[q1 w1] |]; apply IH.
Qed.

Lemma race_step1 {A B : Type} (s : list side) (p p' : prog A) (q : prog B) (w w' : World) :
  step p w = Some (p', w') -> race (Goroutine1 :: s) p q w = race s p' q w'.
Proof. intros H. cbn [race]. rewrite H. reflexivity. Qed.

Lemma race_step2 {A B : Type} (s : list side) (p : prog A) (q q' : prog B) (w w' : World) :
  step q w = Some (q', w') -> race (Goroutine2 :: s) p q w = race s p q' w'.
Proof. intros H. cbn [race]. rewrite H. reflexivity. Qed.

Lemma critical_finish1 (m : nat) (p : prog bool) :
  forall (q : prog bool) (w : World) (R : outcome bool),
    critical m p w R ->
    exists n b wf, race (replicate n Goroutine1) p q w = (Ret b, q, wf) /\
                   R = Done b wf /\ unlocked m wf.
Proof.
  induction p as [b | msg | X o k IH]; intros q w R Hc; simpl in Hc.
  - exists O, b, w. destruct Hc. auto.
  - tauto.
  - destruct Hc as (_ & _ & Hc).
    destruct (exec_op o w) as [x w1 | |] eqn:E; try tauto.
    destruct (IH x q w1 R Hc) as (n & b & wf & Hrace & HR & Hu).
    exists (S n), b, wf. simpl. rewrite E. auto.
Qed.

Lemma critical_finish2 (m : nat) (q : prog bool) :
  forall (p : prog bool) (w : World) (R : outcome bool),
    critical m q w R ->
    exists n b wf, race (replicate n Goroutine2) p q w = (p, Ret b, wf) /\
                   R = Done b wf /\ unlocked m wf.
Proof.
  induction q as [b | msg | X o k IH]; intros p w R Hc; simpl in Hc.
  - exists O, b, w. destruct Hc. auto.
  - tauto.
  - destruct Hc as (_ & _ & Hc).
    destruct (exec_op o w) as [x w1 | |] eqn:E; try tauto.
    destruct (IH x p w1 R Hc) as (n & b & wf & Hrace & HR & Hu).
    exists (S n), b, wf. simpl. rewrite E. auto.
Qed.

Lemma entering_finish1 (m : nat) (p q : prog bool) (w : World) :
  entering m p -> unlocked m w ->
  exists s b wf, race s p q w = (Ret b, q, wf) /\
                 run Accept w = Done b wf /\ unlocked m wf.
Proof.
  intros Hp Hu.
  assert (Hlock : forall p1, at_Lock m p1 ->
    exists s b wf, race s p1 q w = (Ret b, q, wf) /\
                   run Accept w = Done b wf /\ unlocked m wf).
  { intros p1 Hat. destruct (at_Lock_free m p1 w Hat Hu) as (p2 & Hst & Hc).
    destruct (critical_finish1 m p2 q _ _ Hc) as (n & b & wf & Hrace & HR & Hu').
    exists (Goroutine1 :: replicate n Goroutine1), b, wf.
    rewrite (race_step1 _ _ _ _ _ _ Hst). auto. }
  destruct Hp as [-> | Hat]; [| apply Hlock, Hat].
  destruct (Accept_step m w (proj1 Hu)) as (p1 & Hst & Hat).
  destruct (Hlock p1 Hat) as (s & b & wf & Hrace & HR & Hu').
  exists (Goroutine1 :: s), b, wf. rewrite (race_step1 _ _ _ _ _ _ Hst). auto.
Qed.

Lemma entering_finish2 (m : nat) (p q : prog bool) (w : World) :
  entering m q -> unlocked m w ->
  exists s b wf, race s p q w = (p, Ret b, wf) /\
                 run Accept w = Done b wf /\ unlocked m wf.
Proof.
  intros Hq Hu.
  assert (Hlock : forall q1, at_Lock m q1 ->
    exists s b wf, race s p q1 w = (p, Ret b, wf) /\
                   run Accept w = Done b wf /\ unlocked m wf).
  { intros q1 Hat. destruct (at_Lock_free m q1 w Hat Hu) as (q2 & Hst & Hc).
    destruct (critical_finish2 m q2 p _ _ Hc) as (n & b & wf & Hrace & HR & Hu').
    exists (Goroutine2 :: replicate n Goroutine2), b, wf.
    rewrite (race_step2 _ _ _ _ _ _ Hst). auto. }
  destruct Hq as [-> | Hat]; [| apply Hlock, Hat].
  destruct (Accept_step m w (proj1 Hu)) as (q1 & Hst & Hat).
  destruct (Hlock q1 Hat) as (s & b & wf & Hrace & HR & Hu').
  exists (Goroutine2 :: s), b, wf. rewrite (race_step2 _ _ _ _ _ _ Hst). auto.
Qed.

Lemma racing_finish (m : nat) (w : World) (p q : prog bool) (w' : World) :
  unlocked m w -> racing m w p q w' ->
  exists s b1 b2 wf, race s p q w' = (Ret b1, Ret b2, wf).
Proof.
  intros Hbase [(Hp & Hq & ->) | [(Hc & Hq) | [(Hp & Hc) |
    [(b & wa & -> & HR & Hwa & Hc) | (b & wa & -> & HR & Hwa & Hc)]]]].
  - destruct (entering_finish1 m p q w Hp Hbase) as (s1 & b1 & w1 & H1 & _ & Hu1).
    destruct (entering_finish2 m (Ret b1) q w1 Hq Hu1) as (s2 & b2 & w2 & H2 & _).
    exists (s1 ++ s2), b1, b2, w2. rewrite race_app, H1. exact H2.
  - destruct (critical_finish1 m p q _ _ Hc) as (n & b1 & w1 & H1 & _ & Hu1).
    destruct (entering_finish2 m (Ret b1) q w1 Hq Hu1) as (s2 & b2 & w2 & H2 & _).
    exists (replicate n Goroutine1 ++ s2), b1, b2, w2. rewrite race_app, H1. exact H2.
  - destruct (critical_finish2 m q p _ _ Hc) as (n & b2 & w1 & H1 & _ & Hu1).
    destruct (entering_finish1 m p (Ret b2) w1 Hp Hu1) as (s2 & b1 & w2 & H2 & _).
    exists (replicate n Goroutine2 ++ s2), b1, b2, w2. rewrite race_app, H1. exact H2.
  - destruct (critical_finish2 m q (Ret b) _ _ Hc) as (n & b2 & w1 & H1 & _).
    exists (replicate n Goroutine2), b, b2, w1. exact H1.
  - destruct (critical_finish1 m p (Ret b) _ _ Hc) as (n & b1 & w1 & H1 & _).
    exists (replicate n Goroutine1), b1, b, w1. exact H1.
Qed.

(** X12. Two racing calls of [Accept] cannot lock each other out.  On a
    started limiter every interleaving of their primitive operations can
    be continued to one in which both calls have returned. *)
Theorem Accepts_complete (s : list side) (w : World) :
  started w ->
  exists s' b1 b2 w', race (s ++ s') Accept Accept w = (Ret b1, Ret b2, w').
Proof.
  intros (m & Hbase).
  assert (H0 : racing m w Accept Accept w) by (left; repeat split; left; reflexivity).
  pose proof (race_racing m w s Accept Accept w Hbase H0) as Hr.
  destruct (racing_finish m w _ _ _ Hbase Hr) as (s' & b1 & b2 & wf & H).
  exists s', b1, b2, wf. rewrite race_app. exact H.
Qed.

Lemma Accepts_complete_witness :
  exists s' b1 b2 w',
    race ([Goroutine1; Goroutine2; Goroutine1; Goroutine2; Goroutine2] ++ s')
      Accept Accept one_accepted = (Ret b1, Ret b2, w').
Proof.
  apply (Accepts_complete [Goroutine1; Goroutine2; Goroutine1; Goroutine2; Goroutine2]
           one_accepted).
  exists 0%nat. split; reflexivity.
Defined.

(** X13. [Do] must not run while an [Accept] is in progress.  If a second
    goroutine completes a successful [Do] after [Accept] has locked
    [fw.mu] and before its [defer] statement has read [fw.mu] again, the
    deferred call unlocks the new mutex, which nobody holds: [Accept] ends
    in the fatal error of [sync], and the mutex it locked stays held. *)
Theorem Do_inside_Accept_faults (w : World) (m : nat) (d : Z) :
  unlocked m w -> Validate (fw w) = None -> duration (fw w) = Ret d -> 0 < d ->
  exists p w' w'',
    race Do_inside_Accept Accept Do w = (p, Ret None, w') /\
    run p w' = Panicked "fatal error: sync: Unlock of unlocked RWMutex" w'' /\
    mutexes w'' !! m = Some true /\
    mu (fw w'') = Some (length (mutexes w)).
Proof.
  intros [Hmu Hfree] Hv Hd Hpos.
  assert (Hlt : (m < length (mutexes w))%nat) by (eapply lookup_lt_Some, Hfree).
  unfold Do_inside_Accept, Accept, Do. simpl. rewrite Hmu. simpl. rewrite Hfree. simpl.
  rewrite Hv. simpl.
  replace (duration (with_mu (Some (length (<[m:=true]> (mutexes w)))) (fw w)))
    with (duration (fw w)) by reflexivity.
  rewrite Hd. simpl. destruct (Z.leb_spec d 0) as [Hle | _]; [lia |]. simpl.
  match goal with
  | |- exists p w' w'', (?P, _, ?W) = _ /\ _ => exists P, W
  end.
  assert (Hnew : (<[m:=true]> (mutexes w) ++ [false]) !! length (<[m:=true]> (mutexes w))
                 = Some false) by (apply list_lookup_middle; reflexivity).
  assert (Hold : (<[m:=true]> (mutexes w) ++ [false]) !! m = Some true).
  { apply lookup_app_l_Some, list_lookup_insert_eq, Hlt. }
  simpl. destruct (stop (fw w)); simpl.
  - rewrite Hnew. eexists. split; [reflexivity |]. split; [reflexivity |].
    simpl. rewrite length_insert. auto.
  - destruct (counter (fw w) =? Limit (fw w)); simpl; rewrite Hnew;
      eexists; (split; [reflexivity |]); (split; [reflexivity |]);
      simpl; rewrite length_insert; auto.
Qed.

Lemma Do_inside_Accept_faults_witness :
  exists p w' w'',
    race Do_inside_Accept Accept Do one_accepted = (p, Ret None, w') /\
    run p w' = Panicked "fatal error: sync: Unlock of unlocked RWMutex" w'' /\
    mutexes w'' !! 0%nat = Some true /\
    mu (fw w'') = Some (length (mutexes one_accepted)).
Proof.
  apply (Do_inside_Accept_faults one_accepted 0 5000000000);
    [split; reflexivity | reflexivity | reflexivity | lia].
Defined.
